(** * callcache: duplicate call suppression with a cache

  A shallow embedding of [callcache.go] (package [callcache]) and the
  properties of its staleness policy, its update path and its registry.

  The Go program is concurrent: goroutines interleave at the granularity
  of the sections the code protects with a lock and of the single shared
  reads it performs outside one.  The embedding is a machine whose [step]
  function executes the next such section of one goroutine; a schedule
  is a list of (goroutine, clock reading) pairs. *)

From Stdlib Require Import ZArith Lia Bool.
From stdpp Require Import gmap strings list.

Local Open Scope Z_scope.

(** ** int64 arithmetic

  [expiration], [updateInterval], [lastUpdate] and the clock readings are
  Go [int64] values; subtraction wraps around. *)
Module Int64.

Definition min_int : Z := - 2 ^ 63.
Definition max_int : Z := 2 ^ 63 - 1.

Definition in_range (z : Z) : Prop := min_int <= z <= max_int.

Definition wrap (z : Z) : Z := (z + 2 ^ 63) mod 2 ^ 64 - 2 ^ 63.

Definition sub (a b : Z) : Z := wrap (a - b).

End Int64.

(** [loc] is the address of a call struct (its index in the heap) and
    [tid] names a goroutine (its index in the list of goroutines). *)
Abbreviation loc := nat (only parsing).
Abbreviation tid := nat (only parsing).

Section CallCache.

(** [V] are the non-nil values an [interface{}] can hold, [E] the non-nil
    errors, [W] the part of the program state the caller-supplied
    functions can read and write (counters, output, ...). *)
Context {V E W : Type}.

Definition iface : Type := option V.   (* None is nil *)
Definition error : Type := option E.   (* None is nil *)

(** [fn func() (interface{}, error)]: running it yields a pair and a new
    world. *)
Definition Fn : Type := W -> (iface * error) * W.

(** ** [type call struct]

    The two mutexes carry no data: they are rendered by the atomicity of
    the machine's steps.

    Modelled from the spec: [group], the [singleflight.Group] of package
    golang.org/x/sync/singleflight, which the repository imports and does
    not contain.  "All concurrent invocations of this path for the same
    Entry collapse into a single underlying execution"; the mechanism
    "blocks all joiners on the single in-flight execution until it
    completes, then releases them all with the same result"; the pending
    execution is "registered under the Entry, removed on completion".
    The group is only ever used with the key "update": it either has a
    call in flight for that key or not. *)
Record call : Type := Call {
  expiration : Z;
  updateInterval : Z;
  group : bool;
  result : iface;
  lastUpdate : Z
}.

(** [&call{expiration: d.expiration, updateInterval: d.updateInterval}] *)
Definition new_call (exp upd : Z) : call :=
  {| expiration := exp; updateInterval := upd; group := false;
     result := None; lastUpdate := 0 |}.

Definition set_group (b : bool) (c : call) : call :=
  {| expiration := expiration c; updateInterval := updateInterval c;
     group := b; result := result c; lastUpdate := lastUpdate c |}.

(** [c.result = v; c.lastUpdate = now] *)
Definition store (v : iface) (now : Z) (c : call) : call :=
  {| expiration := expiration c; updateInterval := updateInterval c;
     group := group c; result := v; lastUpdate := now |}.

(** [t := now - c.lastUpdate] *)
Definition elapsed (now : Z) (c : call) : Z := Int64.sub now (lastUpdate c).

(** The three ways [call.do] can go after its snapshot (lines 67-73). *)
Inductive decision : Type :=
| Expired     (* return c.update(fn) *)
| Refresh     (* go c.update(fn); return v, nil *)
| Serve.      (* return v, nil *)

Definition do_decide (now : Z) (c : call) : decision :=
  let t := elapsed now c in
  if expiration c <? t then Expired
  else if (0 <? updateInterval c) && (updateInterval c <? t) then Refresh
  else Serve.

(** The guard on line 79 of the function passed to [c.group.Do]. *)
Definition fresh (now : Z) (c : call) : bool :=
  let t := elapsed now c in
  (t <? expiration c) && ((updateInterval c =? 0) || (t <? updateInterval c)).

(** The same guard in the words of the specification: "still fresh under
    both thresholds (current elapsed below expiration, and, when
    refreshInterval > 0, also below refreshInterval)".  It is compared
    with [fresh] below. *)
Definition fresh_as_specified (now : Z) (c : call) : bool :=
  let t := elapsed now c in
  (t <? expiration c) &&
  (if 0 <? updateInterval c then t <? updateInterval c else true).

(** Lines 84-89: a successful result is stored, a failed one is not. *)
Definition store_result (now : Z) (r : iface * error) (c : call) : call :=
  match snd r with
  | None => store (fst r) now c
  | Some _ => c
  end.

(** The function passed to [c.group.Do] (lines 78-90) run in one piece. *)
Definition update_fn (now : Z) (fn : Fn) (c : call) (w : W)
  : (iface * error) * call * W :=
  if fresh now c then ((result c, None), c, w)
  else let '(r, w') := fn w in (r, store_result now r c, w').

(** ** The machine *)

(** Where a goroutine stands.  Each constructor is the point before one
    atomic section of the source. *)
Inductive pc : Type :=
| PDo (key : string) (fn : Fn)
    (* Dispatcher.Do, before d.mu.Lock() on line 34 *)
| PLookup (key : string) (fn : Fn)
    (* line 40, before the read of d.calls[key] *)
| PCallDo (c : option loc) (fn : Fn)
    (* call.do entered with receiver c (None is the nil pointer) *)
| PUpdate (c : loc) (fn : Fn)
    (* call.update, before c.group.Do *)
| PClosure (c : loc) (fn : Fn)
    (* singleflight runs this caller's function: line 78 *)
| PCallFn (c : loc) (fn : Fn) (now : Z)
    (* line 83, before fn() *)
| PStore (c : loc) (now : Z) (r : iface * error)
    (* line 84, after fn() returned r *)
| PFinish (c : loc) (r : iface * error)
    (* the function returned r; singleflight has yet to publish it *)
| PWait (c : loc)
    (* duplicate caller blocked on the call in flight *)
| PRemove (key : string)
    (* Dispatcher.Remove, before d.mu.Lock() *)
| PRet (r : iface * error)
    (* Do / update returned r *)
| PExit
    (* Remove returned *)
| PPanic.
    (* nil pointer dereference *)

(** A goroutine started by [go c.update(fn)] is [detached]: nobody reads
    what it returns. *)
Record thread : Type := Thread { detached : bool; at_pc : pc }.

Record machine : Type := Machine {
  d_expiration : Z;             (* d.expiration *)
  d_updateInterval : Z;         (* d.updateInterval *)
  calls : gmap string loc;      (* d.calls *)
  heap : list call;             (* the call structs allocated so far *)
  threads : list thread;
  world : W;
  crashed : bool                (* an unrecovered panic ended the program *)
}.

(** [NewDispatcher(expiration, updateInterval)], in nanoseconds. *)
Definition NewDispatcher (exp upd : Z) (w : W) : machine :=
  {| d_expiration := exp; d_updateInterval := upd; calls := ∅;
     heap := []; threads := []; world := w; crashed := false |}.

Definition set_calls (f : gmap string loc -> gmap string loc) (m : machine)
  : machine :=
  {| d_expiration := d_expiration m; d_updateInterval := d_updateInterval m;
     calls := f (calls m); heap := heap m; threads := threads m;
     world := world m; crashed := crashed m |}.

Definition set_heap (f : list call -> list call) (m : machine) : machine :=
  {| d_expiration := d_expiration m; d_updateInterval := d_updateInterval m;
     calls := calls m; heap := f (heap m); threads := threads m;
     world := world m; crashed := crashed m |}.

Definition set_threads (f : list thread -> list thread) (m : machine)
  : machine :=
  {| d_expiration := d_expiration m; d_updateInterval := d_updateInterval m;
     calls := calls m; heap := heap m; threads := f (threads m);
     world := world m; crashed := crashed m |}.

Definition set_world (w : W) (m : machine) : machine :=
  {| d_expiration := d_expiration m; d_updateInterval := d_updateInterval m;
     calls := calls m; heap := heap m; threads := threads m;
     world := w; crashed := crashed m |}.

Definition set_crashed (m : machine) : machine :=
  {| d_expiration := d_expiration m; d_updateInterval := d_updateInterval m;
     calls := calls m; heap := heap m; threads := threads m;
     world := world m; crashed := true |}.

(** Goroutine [t] moves on to [p]. *)
Definition goto (t : tid) (p : pc) (m : machine) : machine :=
  set_threads (alter (fun th => Thread (detached th) p) t) m.

(** [go ...]: a new goroutine, with the next free identifier. *)
Definition spawn (th : thread) (m : machine) : machine :=
  set_threads (fun ths => ths ++ [th]) m.

(** Modelled from the spec: when the call in flight completes,
    singleflight releases every caller blocked on it "with the same
    result". *)
Definition wake (c : loc) (r : iface * error) (th : thread) : thread :=
  match at_pc th with
  | PWait c' => if Nat.eqb c c' then Thread (detached th) (PRet r) else th
  | _ => th
  end.

(** Lines 34-38 of [Dispatcher.Do]. *)
Definition ensure_call (key : string) (m : machine) : machine :=
  match calls m !! key with
  | Some _ => m
  | None =>
      set_calls <[key := length (heap m)]>
        (set_heap (fun h => h ++ [new_call (d_expiration m) (d_updateInterval m)]) m)
  end.

(** The next atomic section of goroutine [t]; [now] is what [time.Now()]
    answers if the section reads the clock. *)
Definition step (t : tid) (now : Z) (m : machine) : machine :=
  if crashed m then m else
  match threads m !! t with
  | None => m
  | Some th =>
      match at_pc th with
      | PDo key fn => goto t (PLookup key fn) (ensure_call key m)
      | PLookup key fn => goto t (PCallDo (calls m !! key) fn) m
      | PCallDo None fn => set_crashed (goto t PPanic m)
      | PCallDo (Some p) fn =>
          match heap m !! p with
          | None => m
          | Some c =>
              match do_decide now c with
              | Expired => goto t (PUpdate p fn) m
              | Refresh =>
                  spawn (Thread true (PUpdate p fn))
                    (goto t (PRet (result c, None)) m)
              | Serve => goto t (PRet (result c, None)) m
              end
          end
      | PUpdate p fn =>
          match heap m !! p with
          | None => m
          | Some c =>
              if group c then goto t (PWait p) m
              else goto t (PClosure p fn) (set_heap <[p := set_group true c]> m)
          end
      | PClosure p fn =>
          match heap m !! p with
          | None => m
          | Some c =>
              if fresh now c then goto t (PFinish p (result c, None)) m
              else goto t (PCallFn p fn now) m
          end
      | PCallFn p fn now0 =>
          let '(r, w') := fn (world m) in
          goto t (PStore p now0 r) (set_world w' m)
      | PStore p now0 r =>
          goto t (PFinish p r) (set_heap (alter (store_result now0 r) p) m)
      | PFinish p r =>
          goto t (PRet r)
            (set_threads (fmap (wake p r))
               (set_heap (alter (set_group false) p) m))
      | PWait _ => m
      | PRemove key => goto t PExit (set_calls (delete key) m)
      | PRet _ | PExit | PPanic => m
      end
  end.

(** When two runs are compared, unfold [step] last. *)
Strategy 100 [step].

(** A schedule: which goroutine runs next and what the clock says. *)
Definition schedule : Type := list (tid * Z).

Fixpoint run (s : schedule) (m : machine) : machine :=
  match s with
  | [] => m
  | (t, now) :: s' => run s' (step t now m)
  end.

(** What the caller running as goroutine [t] got back, if it has
    returned. *)
Definition returned (t : tid) (m : machine) : option (iface * error) :=
  match threads m !! t with
  | Some (Thread false (PRet r)) => Some r
  | _ => None
  end.

Definition pc_of (t : tid) (m : machine) : option pc :=
  at_pc <$> threads m !! t.

(** Goroutine [t] stands at [p]. *)
Definition thread_at (t : tid) (d : bool) (p : pc) (m : machine) : Prop :=
  threads m !! t = Some (Thread d p).

(** The goroutine of schedule entry [e] is about to enter the update path
    of entry [p], or is already blocked on the call in flight for it. *)
Definition joins (p : loc) (m : machine) (e : tid * Z) : Prop :=
  exists dj, (exists fnj, thread_at (fst e) dj (PUpdate p fnj) m)
             \/ thread_at (fst e) dj (PWait p) m.

(** The goroutine of schedule entry [e] is blocked on the call in flight
    for entry [p]. *)
Definition waits (p : loc) (m : machine) (e : tid * Z) : Prop :=
  exists dj, thread_at (fst e) dj (PWait p) m.

(** ** Invariants *)

(** Every key of the registry points to an allocated entry, and no two
    keys point to the same one. *)
Definition registry_ok (m : machine) : Prop :=
  (forall k p, calls m !! k = Some p -> (p < length (heap m))%nat) /\
  (forall k k' p, calls m !! k = Some p -> calls m !! k' = Some p -> k = k').



(** The goroutine at [q] is inside the function it passed to
    [c.group.Do] for entry [p] (lines 78-90), or about to hand its result
    to singleflight. *)
Definition leading (p : loc) (q : pc) : bool :=
  match q with
  | PClosure c _ | PCallFn c _ _ | PStore c _ _ | PFinish c _ => Nat.eqb c p
  | _ => false
  end.

(** The goroutine at [q] is blocked in [c.group.Do] for entry [p]. *)
Definition blocked (p : loc) (q : pc) : bool :=
  match q with
  | PWait c => Nat.eqb c p
  | _ => false
  end.

(** Whoever is inside [c.group.Do] for an entry, leading or blocked, is
    there while the group of that entry has a call in flight, and no two
    goroutines lead for the same entry. *)
Definition flights_ok (ths : list thread) (h : list call) : Prop :=
  (forall t th p, ths !! t = Some th ->
     leading p (at_pc th) || blocked p (at_pc th) = true ->
     exists c, h !! p = Some c /\ group c = true) /\
  (forall t1 t2 th1 th2 p,
     ths !! t1 = Some th1 -> ths !! t2 = Some th2 ->
     leading p (at_pc th1) = true -> leading p (at_pc th2) = true ->
     t1 = t2).

Definition single_flight (m : machine) : Prop :=
  flights_ok (threads m) (heap m).

(** ** Sequential use

    A caller that runs [Dispatcher.Do] from line 34 to its return without
    any other goroutine taking a step in between: three sections up to
    the snapshot in [call.do], which reads the clock as [now], then up to
    five in [call.update], whose function reads the clock as [now_u]. *)
Definition solo_update (t : tid) (now_u : Z) : schedule :=
  [(t, now_u); (t, now_u); (t, now_u); (t, now_u); (t, now_u)].

Definition solo_do (t : tid) (now now_u : Z) : schedule :=
  (t, now) :: solo_update t now_u.

Definition solo (t : tid) (now now_u : Z) : schedule :=
  (t, now) :: (t, now) :: solo_do t now now_u.

(** The identifier the next goroutine gets. *)
Definition next_tid (m : machine) : tid := length (threads m).

Definition Do (key : string) (fn : Fn) (now now_u : Z) (m : machine)
  : machine :=
  run (solo (next_tid m) now now_u) (spawn (Thread false (PDo key fn)) m).

Definition Remove (key : string) (m : machine) : machine :=
  run [(next_tid m, 0)] (spawn (Thread false (PRemove key)) m).

End CallCache.

(** ** Concrete dispatchers

  Values are integers, errors are strings and the world is the number of
  times a caller-supplied function has run. *)
Module Examples.

Definition M : Type := machine (V := Z) (E := string) (W := nat).

(** A function that succeeds with [v]. *)
Definition returning (v : Z) : Fn (V := Z) (E := string) (W := nat) :=
  fun n => ((Some v, None), S n).

(** A function that fails with [e] and still hands back a value. *)
Definition failing (v : Z) (e : string) : Fn (V := Z) (E := string) (W := nat) :=
  fun n => ((Some v, Some e), S n).

Definition minute : Z := 60 * 1000000000.
Definition second : Z := 1000000000.

(** 2026-10-31, in nanoseconds since the epoch: any wall-clock reading a
    program can get today is of this size. *)
Definition t0 : Z := 1793404800 * second.


(** An entry populated with 1 at [t0]. *)
Definition entry1 : call (V := Z) :=
  {| expiration := minute; updateInterval := 10 * second; group := false;
     result := Some 1; lastUpdate := t0 |}.

(** A dispatcher holding [entry1] under "key", with one goroutine
    standing at [q]; one function has run so far. *)
Definition standing (q : pc (V := Z) (E := string) (W := nat)) : M :=
  {| d_expiration := minute; d_updateInterval := 10 * second;
     calls := {["key" := 0%nat]}; heap := [entry1];
     threads := [Thread false q]; world := 1%nat; crashed := false |}.

(** A dispatcher with a never-populated entry under "key" and the given
    callers, all of them past their snapshot and about to enter the
    update path. *)
Definition gathered (exp upd : Z)
    (fns : list (Fn (V := Z) (E := string) (W := nat))) : M :=
  {| d_expiration := exp; d_updateInterval := upd;
     calls := {["key" := 0%nat]}; heap := [new_call exp upd];
     threads := (fun fn => Thread false (PUpdate 0%nat fn)) <$> fns;
     world := 0%nat; crashed := false |}.

(** Two goroutines calling [Do] for the same key at the same time. *)
Definition two_callers (exp upd : Z)
    (f1 f2 : Fn (V := Z) (E := string) (W := nat)) : M :=
  spawn (Thread false (PDo "key" f2))
    (spawn (Thread false (PDo "key" f1)) (NewDispatcher exp upd 0%nat)).

(** Both callers run [Do] up to and including the snapshot of [call.do]
    at [now]; then the first runs the update path to its return; only
    then does the second enter it, at [later]. *)
Definition one_after_the_other (now later : Z) : schedule :=
  [(0%nat, now); (0%nat, now); (0%nat, now);
   (1%nat, now); (1%nat, now); (1%nat, now)]
  ++ solo_update 0%nat now ++ solo_update 1%nat later.


(** One goroutine in [Do], one in [Remove], same key, the key present. *)
Definition Do_and_Remove : M :=
  spawn (Thread false (PRemove "key"))
    (spawn (Thread false (PDo "key" (returning 2)))
       (Do "key" (returning 1) t0 t0
          (NewDispatcher minute (10 * second) 0%nat))).

(** A leader on line 78 for the entry of "key", and a goroutine about to
    remove the key. *)
Definition in_flight_and_Remove : M :=
  {| d_expiration := minute; d_updateInterval := 10 * second;
     calls := {["key" := 0%nat]}; heap := [set_group true entry1];
     threads := [Thread false (PClosure 0%nat (returning 7));
                 Thread false (PRemove "key")];
     world := 1%nat; crashed := false |}.

(** The dispatcher of the package's examples, empty. *)
Definition dispatcher : M := NewDispatcher minute (10 * second) 0%nat.

End Examples.

(** Closed goals over the concrete dispatchers are settled by evaluation:
    [zcmp] for a comparison of integers, [zrange] for a pair of them,
    [ok] for an equation. *)
Ltac zcmp := vm_compute; first [reflexivity | discriminate].
Ltac zrange := split; zcmp.
Ltac ok := vm_compute; exact eq_refl.

(** * Properties *)

Module Int64Facts.
Import Int64.

Lemma wrap_in_range z : in_range z -> wrap z = z.
Proof.
  unfold in_range, min_int, max_int, wrap. intros Hz.
  rewrite Z.mod_small; lia.
Qed.

Lemma wrap_range z : in_range (wrap z).
Proof.
  unfold in_range, min_int, max_int, wrap.
  pose proof (Z.mod_pos_bound (z + 2 ^ 63) (2 ^ 64) ltac:(lia)). lia.
Qed.

Lemma sub_zero a : in_range a -> sub a 0 = a.
Proof. intros Ha. unfold sub. rewrite Z.sub_0_r. by apply wrap_in_range. Qed.

Lemma sub_exact a b : in_range (a - b) -> sub a b = a - b.
Proof. apply wrap_in_range. Qed.

End Int64Facts.

(** ** The machine, one section at a time *)
Section Steps.

Context {V E W : Type}.
Implicit Types (m : machine (V := V) (E := E) (W := W)).
Implicit Types (c : call (V := V)) (fn : Fn (V := V) (E := E) (W := W)).
Implicit Types (t l j : tid) (p : loc) (r : iface (V := V) * error (E := E)).
Implicit Types (q : pc (V := V) (E := E) (W := W)).
Implicit Types (th : thread (V := V) (E := E) (W := W)).

Lemma thread_at_goto t d q q' m :
  thread_at t d q m -> thread_at t d q' (goto t q' m).
Proof.
  unfold thread_at, goto, set_threads. cbn [threads]. intros Ht.
  by rewrite list_lookup_alter_eq, Ht.
Qed.

Lemma threads_goto_ne t t' q m :
  t <> t' -> threads (goto t q m) !! t' = threads m !! t'.
Proof.
  intros Hne. unfold goto, set_threads. cbn [threads].
  by rewrite list_lookup_alter_ne.
Qed.

Lemma thread_at_goto_ne t t' d q q' m :
  t <> t' -> thread_at t' d q m -> thread_at t' d q (goto t q' m).
Proof. unfold thread_at. intros Hne Ht. by rewrite threads_goto_ne. Qed.


Lemma thread_at_spawn t d q th m :
  thread_at t d q m -> thread_at t d q (spawn th m).
Proof.
  unfold thread_at, spawn, set_threads. cbn [threads]. intros Ht.
  rewrite lookup_app_l; [done | by eapply lookup_lt_Some].
Qed.

Lemma thread_at_spawned th m :
  thread_at (next_tid m) (detached th) (at_pc th) (spawn th m).
Proof.
  unfold thread_at, spawn, next_tid, set_threads. cbn [threads]. destruct th.
  by rewrite lookup_app_r, Nat.sub_diag.
Qed.

Lemma thread_at_ensure_call t d q key m :
  thread_at t d q m -> thread_at t d q (ensure_call key m).
Proof. unfold thread_at, ensure_call. by destruct (calls m !! key). Qed.

Lemma crashed_ensure_call key m : crashed (ensure_call key m) = crashed m.
Proof. unfold ensure_call. by destruct (calls m !! key). Qed.

Lemma world_ensure_call key m : world (ensure_call key m) = world m.
Proof. unfold ensure_call. by destruct (calls m !! key). Qed.

(** The step equations. *)

Lemma step_crashed t now m : crashed m = true -> step t now m = m.
Proof. intros H. unfold step. by rewrite H. Qed.

Lemma step_PDo t d key fn now m :
  crashed m = false -> thread_at t d (PDo key fn) m ->
  step t now m = goto t (PLookup key fn) (ensure_call key m).
Proof. intros Hc Ht. unfold step. by rewrite Hc, Ht. Qed.

Lemma step_PLookup t d key fn now m :
  crashed m = false -> thread_at t d (PLookup key fn) m ->
  step t now m = goto t (PCallDo (calls m !! key) fn) m.
Proof. intros Hc Ht. unfold step. by rewrite Hc, Ht. Qed.

Lemma step_PCallDo_nil t d fn now m :
  crashed m = false -> thread_at t d (PCallDo None fn) m ->
  step t now m = set_crashed (goto t PPanic m).
Proof. intros Hc Ht. unfold step. by rewrite Hc, Ht. Qed.

Lemma step_PCallDo t d p fn now m c :
  crashed m = false -> thread_at t d (PCallDo (Some p) fn) m ->
  heap m !! p = Some c ->
  step t now m =
    match do_decide now c with
    | Expired => goto t (PUpdate p fn) m
    | Refresh =>
        spawn (Thread true (PUpdate p fn)) (goto t (PRet (result c, None)) m)
    | Serve => goto t (PRet (result c, None)) m
    end.
Proof. intros Hc Ht Hp. unfold step. by rewrite Hc, Ht; simpl; rewrite Hp. Qed.

Lemma step_PUpdate t d p fn now m c :
  crashed m = false -> thread_at t d (PUpdate p fn) m ->
  heap m !! p = Some c ->
  step t now m =
    if group c then goto t (PWait p) m
    else goto t (PClosure p fn) (set_heap <[p := set_group true c]> m).
Proof. intros Hc Ht Hp. unfold step. by rewrite Hc, Ht; simpl; rewrite Hp. Qed.

Lemma step_PClosure t d p fn now m c :
  crashed m = false -> thread_at t d (PClosure p fn) m ->
  heap m !! p = Some c ->
  step t now m =
    if fresh now c then goto t (PFinish p (result c, None)) m
    else goto t (PCallFn p fn now) m.
Proof. intros Hc Ht Hp. unfold step. by rewrite Hc, Ht; simpl; rewrite Hp. Qed.

Lemma step_PCallFn t d p fn now0 now m :
  crashed m = false -> thread_at t d (PCallFn p fn now0) m ->
  step t now m =
    goto t (PStore p now0 (fst (fn (world m)))) (set_world (snd (fn (world m))) m).
Proof.
  intros Hc Ht. unfold step. rewrite Hc, Ht; simpl.
  by destruct (fn (world m)).
Qed.

Lemma step_PStore t d p now0 r now m :
  crashed m = false -> thread_at t d (PStore p now0 r) m ->
  step t now m =
    goto t (PFinish p r) (set_heap (alter (store_result now0 r) p) m).
Proof. intros Hc Ht. unfold step. by rewrite Hc, Ht. Qed.

Lemma step_PFinish t d p r now m :
  crashed m = false -> thread_at t d (PFinish p r) m ->
  step t now m =
    goto t (PRet r)
      (set_threads (fmap (wake p r)) (set_heap (alter (set_group false) p) m)).
Proof. intros Hc Ht. unfold step. by rewrite Hc, Ht. Qed.

Lemma step_PWait t d p now m :
  thread_at t d (PWait p) m -> step t now m = m.
Proof. intros Ht. unfold step. rewrite Ht. by destruct (crashed m). Qed.

Lemma step_PRet t d r now m :
  thread_at t d (PRet r) m -> step t now m = m.
Proof. intros Ht. unfold step. rewrite Ht. by destruct (crashed m). Qed.

Lemma step_PRemove t d key now m :
  crashed m = false -> thread_at t d (PRemove key) m ->
  step t now m = goto t PExit (set_calls (delete key) m).
Proof. intros Hc Ht. unfold step. by rewrite Hc, Ht. Qed.

Lemma run_app s1 s2 m : run (s1 ++ s2) m = run s2 (run s1 m).
Proof.
  revert m. induction s1 as [|[t now] s1 IH]; intros m; simpl; [done|].
  apply IH.
Qed.

Lemma run_crashed s m : crashed m = true -> run s m = m.
Proof.
  induction s as [|[t now] s IH]; simpl; [done|].
  intros Hc. rewrite step_crashed by done. by apply IH.
Qed.

Lemma wake_at d q p r :
  (forall p', q <> PWait p') -> wake p r (Thread d q) = Thread d q.
Proof. intros Hq. unfold wake. simpl. destruct q; try done. by destruct (Hq c). Qed.

Lemma wake_waiting d p r :
  wake (W := W) p r (Thread d (PWait p)) = Thread d (PRet r).
Proof. unfold wake. simpl. by rewrite Nat.eqb_refl. Qed.

(** *** What a step of one goroutine leaves alone *)

Lemma thread_at_wake t d q p r m :
  (forall p', q <> PWait p') ->
  thread_at t d q m -> thread_at t d q (set_threads (fmap (wake p r)) m).
Proof.
  unfold thread_at, set_threads. cbn [threads]. intros Hq Ht.
  by rewrite list_lookup_fmap, Ht; simpl; rewrite wake_at.
Qed.

Lemma thread_at_woken t d p r m :
  thread_at t d (PWait p) m ->
  thread_at t d (PRet r) (set_threads (fmap (wake p r)) m).
Proof.
  unfold thread_at, set_threads. cbn [threads]. intros Ht.
  by rewrite list_lookup_fmap, Ht; simpl; rewrite wake_waiting.
Qed.

(** A goroutine that is not blocked on a call in flight is moved by its
    own steps only. *)
Lemma step_other t t' d q now m :
  t <> t' -> (forall p', q <> PWait p') ->
  thread_at t d q m -> thread_at t d q (step t' now m).
Proof.
  intros Hne Hq Ht. unfold step.
  destruct (crashed m); [done|].
  destruct (threads m !! t') as [[d' q']|]; [|done]. cbn [at_pc].
  destruct q' as [key fn|key fn|[p|] fn|p fn|p fn|p fn n0|p n0 r|p r|p|key|r| |];
    try done.
  - by apply thread_at_goto_ne, thread_at_ensure_call.
  - by apply thread_at_goto_ne.
  - destruct (heap m !! p) as [c|]; [|done].
    destruct (do_decide now c); [| apply thread_at_spawn |];
      by apply thread_at_goto_ne.
  - by apply (thread_at_goto_ne t' t d q PPanic m).
  - destruct (heap m !! p) as [c|]; [|done].
    destruct (group c); by apply thread_at_goto_ne.
  - destruct (heap m !! p) as [c|]; [|done].
    destruct (fresh now c); by apply thread_at_goto_ne.
  - destruct (fn (world m)) as [r w']. by apply thread_at_goto_ne.
  - by apply thread_at_goto_ne.
  - apply thread_at_goto_ne; [done|]. by apply thread_at_wake.
  - by apply thread_at_goto_ne.
Qed.

(** Once a goroutine has returned, nothing that happens later changes
    what it returned. *)
Lemma step_returned t t' d r now m :
  thread_at t d (PRet r) m -> thread_at t d (PRet r) (step t' now m).
Proof.
  intros Ht. destruct (decide (t = t')) as [<-|Hne].
  - by rewrite (step_PRet t d r).
  - by apply step_other.
Qed.

Lemma run_returned t d r s m :
  thread_at t d (PRet r) m -> thread_at t d (PRet r) (run s m).
Proof.
  revert m. induction s as [|[t' now] s IH]; intros m Ht; simpl; [done|].
  by apply IH, step_returned.
Qed.

Lemma returned_at t r m : returned t m = Some r <-> thread_at t false (PRet r) m.
Proof.
  unfold returned, thread_at. split.
  - destruct (threads m !! t) as [[[] []]|]; try done. by intros [= ->].
  - by intros ->.
Qed.

(** *** The call in flight *)

Lemma thread_at_inj t d d' q q' m :
  thread_at t d q m -> thread_at t d' q' m -> d = d' /\ q = q'.
Proof. unfold thread_at. intros -> [= -> ->]. done. Qed.

Lemma thread_at_goto_other t j d dj q qj q' m :
  thread_at t d q m -> thread_at j dj qj m -> q <> qj ->
  thread_at j dj qj (goto t q' m).
Proof.
  intros Ht Hj Hne. apply thread_at_goto_ne; [|done].
  intros <-. by destruct (thread_at_inj _ _ _ _ _ _ Ht Hj).
Qed.

Lemma set_group_store_result b now r c :
  set_group b (store_result now r c) = store_result now r (set_group b c).
Proof. unfold store_result. by destruct (snd r). Qed.

(** singleflight publishes the result: the leader returns it, every
    caller blocked on the call returns it, the group is idle again. *)
Lemma finish_step t d p r c now m :
  crashed m = false -> thread_at t d (PFinish p r) m ->
  heap m !! p = Some c ->
  let m' := step t now m in
  thread_at t d (PRet r) m' /\
  heap m' !! p = Some (set_group false c) /\
  world m' = world m /\ calls m' = calls m /\ crashed m' = false /\
  (forall j dj, thread_at j dj (PWait p) m -> thread_at j dj (PRet r) m') /\
  (forall p', p' <> p -> heap m' !! p' = heap m !! p').
Proof.
  intros Hc Ht Hp m'. subst m'. rewrite (step_PFinish t d p r) by done.
  repeat split; try done.
  - apply (thread_at_goto t d (PFinish p r)).
    apply thread_at_wake; [done|exact Ht].
  - cbn. by rewrite list_lookup_alter_eq, Hp.
  - intros j dj Hj. apply thread_at_goto_ne.
    + intros <-. by destruct (thread_at_inj _ _ _ _ _ _ Ht Hj).
    + by apply thread_at_woken.
  - intros p' Hne. cbn. by rewrite list_lookup_alter_ne.
Qed.

(** The leader of a call in flight, from line 78 to its return, when no
    other goroutine touches the entry in between: the four sections
    amount to [update_fn], run once. *)
Lemma leader_run t d p fn c now n1 n2 n3 m :
  crashed m = false -> thread_at t d (PClosure p fn) m ->
  heap m !! p = Some c ->
  let m' := run [(t, now); (t, n1); (t, n2); (t, n3)] m in
  let u := update_fn now fn c (world m) in
  thread_at t d (PRet u.1.1) m' /\
  heap m' !! p = Some (set_group false u.1.2) /\
  world m' = u.2 /\ calls m' = calls m /\ crashed m' = false /\
  (forall j dj, thread_at j dj (PWait p) m -> thread_at j dj (PRet u.1.1) m') /\
  (forall p', p' <> p -> heap m' !! p' = heap m !! p').
Proof.
  intros Hc Ht Hp. cbn [run]. unfold update_fn.
  rewrite (step_PClosure t d p fn now m c) by done.
  destruct (fresh now c).
  - (* the entry is fresh: the function is not called *)
    set (m1 := goto t (PFinish p (result c, None)) m).
    assert (H1 : thread_at t d (PFinish p (result c, None)) m1)
      by (eapply thread_at_goto, Ht).
    destruct (finish_step t d p (result c, None) c n1 m1 Hc H1 Hp)
      as (Hr & Hh & Hw & Hk & Hcr & Hj & Hfr).
    rewrite (step_PRet t d (result c, None) n2 (step t n1 m1)) by done.
    rewrite (step_PRet t d (result c, None) n3 (step t n1 m1)) by done.
    repeat (split; [done|]). split; [|done].
    intros j dj Hwait. apply Hj.
    by apply (thread_at_goto_other t j d dj (PClosure p fn)).
  - (* the function is called *)
    set (m1 := goto t (PCallFn p fn now) m).
    assert (H1 : thread_at t d (PCallFn p fn now) m1)
      by (eapply thread_at_goto, Ht).
    rewrite (step_PCallFn t d p fn now n1 m1) by done.
    cbn [world goto set_threads m1].
    destruct (fn (world m)) as [r w'] eqn:Hfn. cbn [fst snd].
    set (m2 := goto t (PStore p now r) (set_world w' m1)).
    assert (H2 : thread_at t d (PStore p now r) m2)
      by (eapply thread_at_goto, H1).
    rewrite (step_PStore t d p now r n2 m2) by done.
    set (m3 := goto t (PFinish p r) _).
    assert (H3 : thread_at t d (PFinish p r) m3)
      by (eapply thread_at_goto, H2).
    assert (Hp3 : heap m3 !! p = Some (store_result now r c)).
    { cbn. by rewrite list_lookup_alter_eq, Hp. }
    destruct (finish_step t d p r (store_result now r c) n3 m3 Hc H3 Hp3)
      as (Hr & Hh & Hw & Hk & Hcr & Hj & Hfr).
    repeat (split; [done|]). split.
    2:{ intros p' Hne. rewrite (Hfr p' Hne). cbn.
        by rewrite list_lookup_alter_ne. }
    intros j dj Hwait. apply Hj.
    apply (thread_at_goto_other t j d dj (PStore p now r)); [done| |done].
    apply (thread_at_goto_other t j d dj (PCallFn p fn now)); [done| |done].
    by apply (thread_at_goto_other t j d dj (PClosure p fn)).
Qed.

Lemma fresh_set_group b now c : fresh now (set_group b c) = fresh now c.
Proof. done. Qed.

Lemma update_fn_set_group b now fn c w :
  update_fn now fn (set_group b c) w =
    let u := update_fn now fn c w in (u.1.1, set_group b u.1.2, u.2).
Proof.
  unfold update_fn. rewrite fresh_set_group.
  destruct (fresh now c); [done|].
  destruct (fn w) as [r w']. cbn. by rewrite set_group_store_result.
Qed.

Lemma group_update_fn now fn c w :
  group (update_fn now fn c w).1.2 = group c.
Proof.
  unfold update_fn. destruct (fresh now c); [done|].
  destruct (fn w) as [r w']. cbn. unfold store_result. by destruct (snd r).
Qed.

Lemma set_group_idle c : group c = false -> set_group false c = c.
Proof. destruct c. cbn. by intros ->. Qed.

Lemma set_group_twice b b' c : set_group b (set_group b' c) = set_group b c.
Proof. done. Qed.

(** [call.update] from its entry to its return when the group is idle
    and no other goroutine steps in between: the caller becomes the
    leader and [update_fn] runs once, with the clock reading of line 78;
    the readings [n0], [n1], [n2], [n3] of the other sections play no
    part. *)
Lemma update_run t d p fn c n0 now n1 n2 n3 m :
  crashed m = false -> thread_at t d (PUpdate p fn) m ->
  heap m !! p = Some c -> group c = false ->
  let m' := run [(t, n0); (t, now); (t, n1); (t, n2); (t, n3)] m in
  let u := update_fn now fn c (world m) in
  thread_at t d (PRet u.1.1) m' /\
  heap m' !! p = Some u.1.2 /\
  world m' = u.2 /\ calls m' = calls m /\ crashed m' = false /\
  (forall p', p' <> p -> heap m' !! p' = heap m !! p').
Proof.
  intros Hc Ht Hp Hg. cbn [run].
  rewrite (step_PUpdate t d p fn n0 m c), Hg by done.
  set (m1 := goto t (PClosure p fn) _).
  assert (H1 : thread_at t d (PClosure p fn) m1)
    by (eapply thread_at_goto, Ht).
  assert (Hp1 : heap m1 !! p = Some (set_group true c)).
  { cbn. apply list_lookup_insert_eq. by eapply lookup_lt_Some. }
  destruct (leader_run t d p fn (set_group true c) now n1 n2 n3 m1 Hc H1 Hp1)
    as (Hr & Hh & Hw & Hk & Hcr & _ & Hfr).
  cbn [run] in Hr, Hh, Hw, Hk, Hcr, Hfr.
  change (world m1) with (world m) in Hr, Hh, Hw.
  rewrite update_fn_set_group in Hr, Hh, Hw. cbn [fst snd] in Hr, Hh, Hw.
  split; [exact Hr|].
  split; [|split; [exact Hw|split; [exact Hk|split; [exact Hcr|]]]].
  - rewrite Hh, set_group_twice, set_group_idle; [done|].
    by rewrite group_update_fn.
  - intros p' Hne. rewrite (Hfr p' Hne). cbn.
    by rewrite list_lookup_insert_ne.
Qed.

End Steps.

(** ** The staleness policy of [call.do] *)
Section Policy.

Context {V E W : Type}.
Implicit Types (m : machine (V := V) (E := E) (W := W)).
Implicit Types (c : call (V := V)) (fn : Fn (V := V) (E := E) (W := W)).
Implicit Types (t l j : tid) (p : loc) (r : iface (V := V) * error (E := E)).

Lemma do_decide_Expired now c :
  expiration c < elapsed now c -> do_decide now c = Expired.
Proof. intros H. unfold do_decide. by rewrite (proj2 (Z.ltb_lt _ _) H). Qed.

Lemma do_decide_Refresh now c :
  elapsed now c <= expiration c ->
  0 < updateInterval c -> updateInterval c < elapsed now c ->
  do_decide now c = Refresh.
Proof.
  intros H1 H2 H3. unfold do_decide.
  rewrite (proj2 (Z.ltb_ge _ _) H1).
  by rewrite (proj2 (Z.ltb_lt _ _) H2), (proj2 (Z.ltb_lt _ _) H3).
Qed.

Lemma do_decide_Serve now c :
  elapsed now c <= expiration c ->
  ~ (0 < updateInterval c /\ updateInterval c < elapsed now c) ->
  do_decide now c = Serve.
Proof.
  intros H1 H2. unfold do_decide.
  rewrite (proj2 (Z.ltb_ge _ _) H1).
  destruct (Z.ltb_spec 0 (updateInterval c)); [|done].
  destruct (Z.ltb_spec (updateInterval c) (elapsed now c)); [|done].
  by destruct H2.
Qed.


End Policy.


(** ** The update path *)
Section UpdatePath.

Context {V E W : Type}.
Implicit Types (m : machine (V := V) (E := E) (W := W)).
Implicit Types (c : call (V := V)) (fn : Fn (V := V) (E := E) (W := W)).
Implicit Types (t l j : tid) (p : loc) (r : iface (V := V) * error (E := E)).
Implicit Types (v : iface (V := V)) (e : E) (w : W).

Lemma do_decide_Expired_iff now c :
  do_decide now c = Expired <-> expiration c < elapsed now c.
Proof.
  unfold do_decide. destruct (Z.ltb_spec (expiration c) (elapsed now c)).
  - done.
  - split; [|lia]. by destruct (_ && _).
Qed.

Lemma elapsed_never_populated now c :
  lastUpdate c = 0 -> Int64.in_range now -> elapsed now c = now.
Proof. intros Hl Hn. unfold elapsed. rewrite Hl. by apply Int64Facts.sub_zero. Qed.

Lemma update_fn_called now fn c w :
  fresh now c = false ->
  update_fn now fn c w = ((fn w).1, store_result now (fn w).1 c, (fn w).2).
Proof. intros Hf. unfold update_fn. rewrite Hf. by destruct (fn w). Qed.

Lemma update_fn_skipped now fn c w :
  fresh now c = true -> update_fn now fn c w = ((result c, None), c, w).
Proof. intros Hf. unfold update_fn. by rewrite Hf. Qed.

(** The re-check of line 79: on a fresh entry the update path returns what
    is cached and neither calls the function nor writes. *)
Lemma fresh_update_skips_fn t d p fn c n0 now n1 n2 n3 m :
  crashed m = false ->
  thread_at t d (PUpdate p fn) m ->
  heap m !! p = Some c -> group c = false ->
  fresh now c = true ->
  let m' := run [(t, n0); (t, now); (t, n1); (t, n2); (t, n3)] m in
  thread_at t d (PRet (result c, None)) m' /\
  heap m' !! p = Some c /\ world m' = world m.
Proof.
  intros Hc Ht Hp Hg Hf m'.
  destruct (update_run t d p fn c n0 now n1 n2 n3 m Hc Ht Hp Hg)
    as (Hr & Hh & Hw & _).
  by rewrite update_fn_skipped in Hr, Hh, Hw by done.
Qed.

(** The guard of line 79 is the one the specification words whenever
    [updateInterval] is not negative. *)
Lemma fresh_as_specified_nonneg now c :
  0 <= updateInterval c -> fresh now c = fresh_as_specified now c.
Proof.
  intros Hu. unfold fresh, fresh_as_specified. f_equal.
  destruct (Z.eqb_spec (updateInterval c) 0) as [->|Hne]; [done|].
  cbn. by rewrite (proj2 (Z.ltb_lt 0 (updateInterval c))) by lia.
Qed.

(** C3. When the function called on the update path fails, that
    execution leaves the entry as it was ([result] and [lastUpdate]
    included) and hands the failure to the caller; a synchronous caller
    returns it.  Later calls therefore compute the same elapsed time and
    take the same decision as they would have before; in particular an
    entry that was never populated and that the synchronous caller found
    expired at [now_s] is found expired at every later reading. *)
Theorem failed_update_leaves_cache t d p fn c v e w' n0 now n1 n2 n3 m :
  crashed m = false ->
  thread_at t d (PUpdate p fn) m ->
  heap m !! p = Some c -> group c = false ->
  fresh now c = false ->
  fn (world m) = ((v, Some e), w') ->
  let m' := run [(t, n0); (t, now); (t, n1); (t, n2); (t, n3)] m in
  heap m' !! p = Some c /\
  thread_at t d (PRet (v, Some e)) m' /\
  (d = false -> returned t m' = Some (v, Some e)) /\
  (forall c', heap m' !! p = Some c' ->
     result c' = result c /\ lastUpdate c' = lastUpdate c /\
     forall now', elapsed now' c' = elapsed now' c /\
                  do_decide now' c' = do_decide now' c) /\
  (lastUpdate c = 0 ->
   forall now_s now' c',
     Int64.in_range now_s -> Int64.in_range now' ->
     do_decide now_s c = Expired -> now_s <= now' ->
     heap m' !! p = Some c' -> do_decide now' c' = Expired).
Proof.
  intros Hc Ht Hp Hg Hf Hfn m'.
  destruct (update_run t d p fn c n0 now n1 n2 n3 m Hc Ht Hp Hg)
    as (Hr & Hh & Hw & _).
  rewrite update_fn_called, Hfn in Hr, Hh by done.
  cbn [fst snd store_result] in Hr, Hh. fold m' in Hr, Hh.
  split; [done|]. split; [done|]. split; [|split].
  - intros ->. by apply returned_at.
  - intros c'. rewrite Hh. by intros [= <-].
  - intros Hl now_s now' c' Hs Hn Hexp Hle. rewrite Hh. intros [= <-].
    apply do_decide_Expired_iff in Hexp. apply do_decide_Expired_iff.
    rewrite elapsed_never_populated in * by done. lia.
Qed.

(** C7. When the function called on the update path succeeds with [v],
    one section (lines 85-88) writes [result] and [lastUpdate] together:
    before it the entry holds the old pair, after it the pair
    [(v, now)], where [now] is the reading taken on line 78, when the
    function had not yet run.  The readings taken afterwards do not
    enter; if the clock did not go backwards while the function ran
    (it returned at [n1]), the stored [lastUpdate] is no later than
    that. *)
Theorem successful_update_stores t d p fn c v w' n0 now n1 n2 n3 m :
  crashed m = false ->
  thread_at t d (PUpdate p fn) m ->
  heap m !! p = Some c -> group c = false ->
  fresh now c = false ->
  fn (world m) = ((v, None), w') ->
  now <= n1 ->
  let before_fn := run [(t, n0); (t, now)] m in
  let before_store := run [(t, n1)] before_fn in
  let after_store := run [(t, n2)] before_store in
  let m' := run [(t, n3)] after_store in
  world before_fn = world m /\ world before_store = w' /\
  heap before_store !! p = Some (set_group true c) /\
  heap after_store !! p = Some (store v now (set_group true c)) /\
  heap m' !! p = Some (store v now c) /\
  thread_at t d (PRet (v, None)) m' /\
  (forall c', heap m' !! p = Some c' ->
     result c' = v /\ lastUpdate c' = now /\ lastUpdate c' <= n1).
Proof.
  intros Hc Ht Hp Hg Hf Hfn Hle.
  destruct (update_run t d p fn c n0 now n1 n2 n3 m Hc Ht Hp Hg)
    as (Hr & Hh & _).
  rewrite update_fn_called, Hfn in Hr, Hh by done.
  cbn [fst snd store_result] in Hr, Hh. revert Hr Hh.
  cbn [run].
  rewrite (step_PUpdate t d p fn n0 m c), Hg by done.
  set (m1 := goto t (PClosure p fn) _).
  assert (H1 : thread_at t d (PClosure p fn) m1)
    by (eapply thread_at_goto, Ht).
  assert (Hp1 : heap m1 !! p = Some (set_group true c)).
  { cbn. apply list_lookup_insert_eq. by eapply lookup_lt_Some. }
  rewrite (step_PClosure t d p fn now m1 (set_group true c)) by done.
  rewrite fresh_set_group, Hf.
  set (m2 := goto t (PCallFn p fn now) m1).
  assert (H2 : thread_at t d (PCallFn p fn now) m2)
    by (eapply thread_at_goto, H1).
  rewrite (step_PCallFn t d p fn now n1 m2) by done.
  change (world m2) with (world m). rewrite Hfn. cbn [fst snd].
  set (m3 := goto t (PStore p now (v, None)) _).
  assert (H3 : thread_at t d (PStore p now (v, None)) m3)
    by (eapply thread_at_goto, H2).
  rewrite (step_PStore t d p now (v, None) n2 m3) by done.
  set (m4 := goto t (PFinish p (v, None)) _).
  intros Hr Hh.
  split; [done|]. split; [done|]. split; [done|]. split.
  { change (alter (store_result (E := E) now (v, None)) p (heap m1) !! p
            = Some (store v now (set_group true c))).
    by rewrite list_lookup_alter_eq, Hp1. }
  split; [done|]. split; [done|].
  intros c'. rewrite Hh. intros [= <-]. by cbn.
Qed.

(** C10. When the synchronous caller's function is called on the update
    path and fails, the caller returns exactly the pair the function
    returned: the value is the function's own, whatever the entry holds. *)
Theorem failed_update_returns_fn_pair t p fn c e now now_u m :
  crashed m = false ->
  thread_at t false (PCallDo (Some p) fn) m ->
  heap m !! p = Some c -> group c = false ->
  do_decide now c = Expired ->
  fresh now_u c = false ->
  (fn (world m)).1.2 = Some e ->
  let m' := run (solo_do t now now_u) m in
  returned t m' = Some (fn (world m)).1 /\
  (forall r, returned t m' = Some r -> r.1 = (fn (world m)).1.1 /\ r.2 = Some e).
Proof.
  intros Hc Ht Hp Hg Hexp Hf He m'.
  assert (Hret : returned t m' = Some (fn (world m)).1).
  { subst m'. unfold solo_do. cbn [run].
    rewrite (step_PCallDo t false p fn now m c), Hexp by done.
    set (m1 := goto t (PUpdate p fn) m).
    assert (H1 : thread_at t false (PUpdate p fn) m1)
      by (eapply thread_at_goto, Ht).
    destruct (update_run t false p fn c now_u now_u now_u now_u now_u m1
                Hc H1 Hp Hg) as (Hr & _).
    rewrite update_fn_called in Hr by done. by apply returned_at. }
  split; [done|]. intros r. rewrite Hret. by intros [= <-].
Qed.

End UpdatePath.

(** ** The registry: [Dispatcher.Do] and [Dispatcher.Remove] *)
Section Registry.

Context {V E W : Type}.
Implicit Types (m : machine (V := V) (E := E) (W := W)).
Implicit Types (c : call (V := V)) (fn : Fn (V := V) (E := E) (W := W)).
Implicit Types (t l j : tid) (p : loc) (r : iface (V := V) * error (E := E)).
Implicit Types (q : pc (V := V) (E := E) (W := W)).

Lemma run_cons t now s m : run ((t, now) :: s) m = run s (step t now m).
Proof. done. Qed.

Lemma alter_last {A} (f : A -> A) (l : list A) (x : A) :
  alter f (length l) (l ++ [x]) = l ++ [f x].
Proof. induction l as [|y l IH]; [done|]. cbn. by f_equal. Qed.


(** A caller of [Do] that has returned takes no further step. *)
Lemma run_solo_update_returned t d r now m :
  thread_at t d (PRet r) m -> run (solo_update t now) m = m.
Proof.
  intros Ht. unfold solo_update.
  by rewrite !run_cons, !(step_PRet t d r _ m Ht).
Qed.



Lemma elapsed_new_call exp upd now :
  Int64.in_range now -> elapsed (V := V) now (new_call exp upd) = now.
Proof. by apply elapsed_never_populated. Qed.


Lemma fresh_new_call exp upd now :
  Int64.in_range now -> exp <= now ->
  fresh (V := V) now (new_call exp upd) = false.
Proof.
  intros Hn Hle. unfold fresh. rewrite elapsed_new_call by done. cbn.
  by rewrite (proj2 (Z.ltb_ge _ _) Hle).
Qed.





End Registry.

(** ** Goroutines racing *)
Section Races.

Context {V E W : Type}.
Implicit Types (m x : machine (V := V) (E := E) (W := W)).
Implicit Types (c : call (V := V)) (fn : Fn (V := V) (E := E) (W := W)).
Implicit Types (t l j : tid) (p : loc) (r : iface (V := V) * error (E := E)).
Implicit Types (q : pc (V := V) (E := E) (W := W)).
Implicit Types (js : schedule).

Lemma Forall_both {A} (P Q : A -> Prop) (xs : list A) :
  Forall P xs -> Forall Q xs -> Forall (fun y => P y /\ Q y) xs.
Proof. intros HP HQ. apply Forall_and. by split. Qed.

Lemma Forall_left {A} (P Q : A -> Prop) (xs : list A) :
  Forall (fun y => P y /\ Q y) xs -> Forall P xs.
Proof. intros H. by apply Forall_and in H as [? _]. Qed.

Lemma joins_goto l q' p x e :
  e.1 <> l -> joins p x e -> joins p (goto l q' x) e.
Proof.
  intros Hne (dj & [[fnj Hj]|Hj]); exists dj.
  - left. exists fnj. by apply thread_at_goto_ne.
  - right. by apply thread_at_goto_ne.
Qed.

Lemma waits_goto l q' p x e :
  e.1 <> l -> waits p x e -> waits p (goto l q' x) e.
Proof. intros Hne (dj & Hj). exists dj. by apply thread_at_goto_ne. Qed.

Lemma waits_joins p x e : waits p x e -> joins p x e.
Proof. intros (dj & Hj). exists dj. by right. Qed.

(** While a call is in flight for entry [p], led by [l], callers entering
    the update path block on it and change nothing else. *)
Lemma joins_run l d q p c js : forall x,
  crashed x = false -> thread_at l d q x ->
  heap x !! p = Some c -> group c = true ->
  Forall (fun e => e.1 <> l /\ joins p x e) js ->
  let x' := run js x in
  crashed x' = false /\ thread_at l d q x' /\
  heap x' = heap x /\ world x' = world x /\
  Forall (waits p x') js /\
  (forall e, waits p x e -> waits p x' e) /\
  (forall e, joins p x e -> joins p x' e).
Proof.
  induction js as [|[j nj] js IH]; intros x Hc Hl Hp Hg Hjs; cbn [run].
  { by repeat split. }
  apply Forall_cons in Hjs as [[Hjl (dj & Hj)] Hjs]. cbn [fst] in Hjl, Hj.
  assert (Hx1 : exists x1, step j nj x = x1 /\
            crashed x1 = false /\ thread_at l d q x1 /\
            heap x1 = heap x /\ world x1 = world x /\
            thread_at j dj (PWait p) x1 /\
            (forall e, waits p x e -> waits p x1 e) /\
            (forall e, joins p x e -> joins p x1 e)).
  { destruct Hj as [[fnj Hj]|Hj].
    - exists (goto j (PWait p) x).
      rewrite (step_PUpdate j dj p fnj nj x c Hc Hj Hp), Hg.
      split; [done|]. split; [done|].
      split; [by apply thread_at_goto_ne|].
      split; [done|]. split; [done|].
      split; [eapply thread_at_goto, Hj|]. split.
      + intros e (de & He). destruct (decide (e.1 = j)) as [Heq|Hne].
        * rewrite Heq in He.
          by destruct (thread_at_inj _ _ _ _ _ _ Hj He).
        * exists de. by apply thread_at_goto_ne.
      + intros e He. destruct (decide (e.1 = j)) as [Heq|Hne].
        * exists dj. right. rewrite Heq. eapply thread_at_goto, Hj.
        * by apply joins_goto.
    - exists x. rewrite (step_PWait j dj p nj x Hj). by repeat split. }
  destruct Hx1 as (x1 & -> & Hc1 & Hl1 & Hh1 & Hw1 & Hj1 & Hw & Hjn).
  destruct (IH x1) as (Hc' & Hl' & Hh' & Hw' & Hall & Hkeep & Hjoin);
    [done|done|by rewrite Hh1|done| |].
  { eapply Forall_impl; [exact Hjs|]. intros e [Hne He]. split; [done|].
    by apply Hjn. }
  split; [done|]. split; [done|]. split; [by rewrite Hh'|].
  split; [by rewrite Hw'|]. split; [|split].
  - apply Forall_cons. split; [|done]. apply Hkeep. by exists dj.
  - intros e He. by apply Hkeep, Hw.
  - intros e He. by apply Hjoin, Hjn.
Qed.

(** C2, for the callers of one execution.  One caller enters the update
    path of an idle entry and becomes the leader ([n0]); its execution
    reads the clock ([now]), finds the entry stale, calls the function
    ([n1]), stores ([n2]) and is published ([n3]).  Before, between and
    after these sections, but before the last, any number of other callers
    enter the update path of the same entry ([js0] to [js3]).  The function
    ran exactly once, and it was the leader's: the leader and every one of
    the other callers return the pair that run produced, and the world is
    the one that run left. *)
Theorem joined_callers_share_one_execution
    l d p fn c js0 js1 js2 js3 n0 now n1 n2 n3 m :
  crashed m = false ->
  thread_at l d (PUpdate p fn) m ->
  heap m !! p = Some c -> group c = false ->
  fresh now c = false ->
  Forall (fun e => e.1 <> l /\
                   exists dj fnj, thread_at e.1 dj (PUpdate p fnj) m)
         (js0 ++ js1 ++ js2 ++ js3) ->
  let m' := run ((l, n0) :: js0 ++ (l, now) :: js1 ++ (l, n1) :: js2
                   ++ (l, n2) :: js3 ++ [(l, n3)]) m in
  thread_at l d (PRet (fn (world m)).1) m' /\
  Forall (fun e => exists dj, thread_at e.1 dj (PRet (fn (world m)).1) m')
         (js0 ++ js1 ++ js2 ++ js3) /\
  world m' = (fn (world m)).2 /\
  heap m' !! p = Some (store_result now (fn (world m)).1 c).
Proof.
  intros Hc Hl Hp Hg Hf Hjs.
  rewrite run_cons, run_app, run_cons, run_app, run_cons, run_app, run_cons,
    run_app.
  set (r := (fn (world m)).1). set (ct := set_group true c).
  (* the leader registers its call *)
  rewrite (step_PUpdate l d p fn n0 m c Hc Hl Hp), Hg.
  set (m1 := goto l (PClosure p fn) _).
  assert (Hl1 : thread_at l d (PClosure p fn) m1)
    by (eapply thread_at_goto, Hl).
  assert (Hp1 : heap m1 !! p = Some ct).
  { cbn. apply list_lookup_insert_eq. by eapply lookup_lt_Some. }
  assert (Hj : Forall (fun e => e.1 <> l /\ joins p m1 e)
                 (js0 ++ js1 ++ js2 ++ js3)).
  { eapply Forall_impl; [exact Hjs|]. intros e (Hnl & dj & fnj & Hj).
    split; [done|]. apply joins_goto; [done|]. exists dj. left. by exists fnj. }
  apply Forall_app in Hj as [Hj0 Hj]. apply Forall_app in Hj as [Hj1 Hj].
  apply Forall_app in Hj as [Hj2 Hj3].
  (* callers join; then lines 78-79 *)
  destruct (joins_run l d (PClosure p fn) p ct js0 m1 Hc Hl1 Hp1 eq_refl Hj0)
    as (Hca & Hla & Hha & Hwa & W0 & _ & Ja).
  set (a := run js0 m1) in *.
  assert (Hpa : heap a !! p = Some ct) by (by rewrite Hha).
  rewrite (step_PClosure l d p fn now a ct Hca Hla Hpa).
  change (fresh now ct) with (fresh now c). rewrite Hf.
  set (a' := goto l (PCallFn p fn now) a).
  assert (Hla' : thread_at l d (PCallFn p fn now) a')
    by (eapply thread_at_goto, Hla).
  assert (Ja' : forall e, e.1 <> l -> joins p m1 e -> joins p a' e).
  { intros e Hne He. by apply joins_goto, Ja. }
  assert (W0' : Forall (fun e => e.1 <> l /\ waits p a' e) js0).
  { eapply Forall_impl; [exact (Forall_both _ _ _ (Forall_left _ _ _ Hj0) W0)|].
    intros e [Hnl He]. split; [done|]. by apply waits_goto. }
  clear W0.
  (* callers join; then line 83 *)
  destruct (joins_run l d (PCallFn p fn now) p ct js1 a' Hca Hla' Hpa eq_refl)
    as (Hcb & Hlb & Hhb & Hwb & W1 & Wb & Jb).
  { eapply Forall_impl; [exact Hj1|]. intros e [Hnl He]. split; [done|].
    by apply Ja'. }
  set (b := run js1 a') in *.
  rewrite (step_PCallFn l d p fn now n1 b Hcb Hlb).
  assert (Hwm : world b = world m) by (by rewrite Hwb).
  rewrite Hwm. fold r.
  set (b' := goto l (PStore p now r) _).
  assert (Hlb' : thread_at l d (PStore p now r) b')
    by (eapply thread_at_goto, Hlb).
  assert (Hpb' : heap b' !! p = Some ct) by (cbn; by rewrite Hhb).
  (* callers join; then lines 84-89 *)
  destruct (joins_run l d (PStore p now r) p ct js2 b' Hcb Hlb' Hpb' eq_refl)
    as (Hcc & Hlc & Hhc & Hwc & W2 & Wc & Jc).
  { eapply Forall_impl; [exact Hj2|]. intros e [Hnl He]. split; [done|].
    apply (joins_goto l (PStore p now r) p (set_world (fn (world m)).2 b));
      [done|].
    by apply Jb, Ja'. }
  set (c2 := run js2 b') in *.
  rewrite (step_PStore l d p now r n2 c2 Hcc Hlc).
  set (c' := goto l (PFinish p r) _).
  assert (Hlc' : thread_at l d (PFinish p r) c')
    by (eapply thread_at_goto, Hlc).
  assert (Hpc' : heap c' !! p = Some (store_result now r ct)).
  { cbn. by rewrite list_lookup_alter_eq, Hhc, Hpb'. }
  assert (Hgc' : group (store_result now r ct) = true).
  { unfold store_result. by destruct (snd r). }
  (* callers join; then the call is published *)
  destruct (joins_run l d (PFinish p r) p (store_result now r ct) js3 c'
              Hcc Hlc' Hpc' Hgc')
    as (Hcd & Hld & Hhd & Hwd & W3 & Wd & _).
  { eapply Forall_impl; [exact Hj3|]. intros e [Hnl He]. split; [done|].
    apply (joins_goto l (PFinish p r) p
             (set_heap (alter (store_result now r) p) c2)); [done|].
    apply Jc.
    apply (joins_goto l (PStore p now r) p (set_world (fn (world m)).2 b));
      [done|].
    by apply Jb, Ja'. }
  set (e3 := run js3 c') in *.
  assert (Hpd : heap e3 !! p = Some (store_result now r ct)) by (by rewrite Hhd).
  destruct (finish_step l d p r (store_result now r ct) n3 e3 Hcd Hld Hpd)
    as (Hr & Hh & Hw & _ & _ & Hwoken & _).
  cbn [run].
  (* everybody who joined is blocked when the call is published *)
  assert (Wall : Forall (waits p e3) (js0 ++ js1 ++ js2 ++ js3)).
  { apply Forall_app. split; [|apply Forall_app; split;
                                [|apply Forall_app; split; [|exact W3]]].
    - eapply Forall_impl; [exact W0'|]. intros e [Hnl He].
      apply Wd.
      apply (waits_goto l (PFinish p r) p
               (set_heap (alter (store_result now r) p) c2)); [done|].
      apply Wc.
      apply (waits_goto l (PStore p now r) p (set_world (fn (world m)).2 b));
        [done|].
      by apply Wb.
    - eapply Forall_impl; [exact (Forall_both _ _ _ (Forall_left _ _ _ Hj1) W1)|].
      intros e [Hnl He]. apply Wd.
      apply (waits_goto l (PFinish p r) p
               (set_heap (alter (store_result now r) p) c2)); [done|].
      apply Wc.
      by apply (waits_goto l (PStore p now r) p
                  (set_world (fn (world m)).2 b)).
    - eapply Forall_impl; [exact (Forall_both _ _ _ (Forall_left _ _ _ Hj2) W2)|].
      intros e [Hnl He]. apply Wd.
      by apply (waits_goto l (PFinish p r) p
                  (set_heap (alter (store_result now r) p) c2)). }
  split; [exact Hr|]. split; [|split].
  - eapply Forall_impl; [exact Wall|]. intros e (dj & He).
    exists dj. by apply Hwoken.
  - rewrite Hw, Hwd. cbn. by rewrite Hwc.
  - rewrite Hh, set_group_store_result. unfold ct.
    rewrite set_group_twice, set_group_idle; done.
Qed.

(** [Do] reads [d.calls[key]] a second time on line 40, after it has
    released the lock: a [Remove] of the key between the two leaves it
    with the nil pointer, and [call.do] dereferences it. *)
Lemma Do_Remove_race t t' d d' key fn n1 n2 n3 n4 m :
  crashed m = false ->
  thread_at t d (PDo key fn) m ->
  thread_at t' d' (PRemove key) m ->
  let m' := run [(t, n1); (t', n2); (t, n3); (t, n4)] m in
  crashed m' = true /\ thread_at t d PPanic m' /\ returned t m' = None /\
  calls m' !! key = None.
Proof.
  intros Hc Ht Ht'. rewrite !run_cons. cbn [run].
  rewrite (step_PDo t d key fn n1 m Hc Ht).
  set (m1 := goto t (PLookup key fn) (ensure_call key m)).
  assert (Hc1 : crashed m1 = false) by (cbn; by rewrite crashed_ensure_call).
  assert (H1 : thread_at t d (PLookup key fn) m1).
  { eapply thread_at_goto, thread_at_ensure_call, Ht. }
  assert (H1' : thread_at t' d' (PRemove key) m1).
  { apply (thread_at_goto_other t t' d d' (PDo key fn));
      [by apply thread_at_ensure_call|by apply thread_at_ensure_call|done]. }
  rewrite (step_PRemove t' d' key n2 m1 Hc1 H1').
  set (m2 := goto t' PExit (set_calls (delete key) m1)).
  assert (H2 : thread_at t d (PLookup key fn) m2).
  { by apply (thread_at_goto_other t' t d' d (PRemove key)). }
  assert (Hk2 : calls m2 !! key = None) by apply lookup_delete_eq.
  rewrite (step_PLookup t d key fn n3 m2 Hc1 H2), Hk2.
  set (m3 := goto t (PCallDo None fn) m2).
  assert (H3 : thread_at t d (PCallDo None fn) m3)
    by (eapply thread_at_goto, H2).
  rewrite (step_PCallDo_nil t d fn n4 m3 Hc1 H3).
  assert (H4 : thread_at t d PPanic (set_crashed (goto t PPanic m3)))
    by (eapply thread_at_goto, H3).
  split; [done|]. split; [done|]. split; [|done].
  unfold returned. rewrite H4. by destruct d.
Qed.

End Races.

(** ** Calls one after the other *)
Section Sequential.

Context {V E W : Type}.
Implicit Types (m : machine (V := V) (E := E) (W := W)).
Implicit Types (c : call (V := V)) (fn : Fn (V := V) (E := E) (W := W)).
Implicit Types (t l j : tid) (p : loc) (r : iface (V := V) * error (E := E)).
Implicit Types (q : pc (V := V) (E := E) (W := W)).
Implicit Types (th : thread (V := V) (E := E) (W := W)).
Implicit Types (v : iface (V := V)) (e : E) (w : W).

Lemma ensure_call_spawn key th m :
  ensure_call key (spawn th m) = spawn th (ensure_call key m).
Proof.
  unfold ensure_call. change (calls (spawn th m)) with (calls m).
  by destruct (calls m !! key).
Qed.

Lemma threads_ensure_call key m : threads (ensure_call key m) = threads m.
Proof. unfold ensure_call. by destruct (calls m !! key). Qed.

Lemma ensure_call_present key p m :
  calls m !! key = Some p -> ensure_call key m = m.
Proof. intros H. unfold ensure_call. by rewrite H. Qed.

Lemma heap_frame_insert (h h' : list (call (V := V))) p c :
  (p < length h)%nat -> h' !! p = Some c ->
  (forall p', p' <> p -> h' !! p' = h !! p') -> h' = <[p := c]> h.
Proof.
  intros Hlt Hp Hfr. apply list_eq. intros i.
  destruct (decide (i = p)) as [->|Hne].
  - by rewrite Hp, list_lookup_insert_eq.
  - by rewrite Hfr, list_lookup_insert_ne.
Qed.

(** [Do] from its call to its return, no other goroutine stepping in
    between, on any dispatcher: [m0] is the dispatcher after lines 34-38,
    [p] the entry line 40 reads and [c] what it holds. *)
Lemma Do_run key fn now now_u m p c :
  crashed m = false ->
  calls (ensure_call key m) !! key = Some p ->
  heap (ensure_call key m) !! p = Some c -> group c = false ->
  let m0 := ensure_call key m in
  let t := next_tid m in
  let m' := Do key fn now now_u m in
  crashed m' = false /\ calls m' = calls m0 /\
  match do_decide now c with
  | Expired =>
      let u := update_fn now_u fn c (world m) in
      returned t m' = Some u.1.1 /\
      heap m' = <[p := u.1.2]> (heap m0) /\ world m' = u.2
  | Refresh =>
      returned t m' = Some (result c, None) /\
      heap m' = heap m0 /\ world m' = world m /\
      threads m' = threads m ++ [Thread false (PRet (result c, None));
                                 Thread true (PUpdate p fn)]
  | Serve =>
      returned t m' = Some (result c, None) /\
      heap m' = heap m0 /\ world m' = world m /\
      threads m' = threads m ++ [Thread false (PRet (result c, None))]
  end.
Proof.
  intros Hc Hk Hp Hg m0 t m'. subst m'. unfold Do, solo, solo_do.
  fold m0 in Hk, Hp. rewrite !run_cons. fold t.
  pose proof (thread_at_spawned (Thread false (PDo key fn)) m) as H0.
  cbn [detached at_pc] in H0. fold t in H0.
  rewrite (step_PDo t false key fn now (spawn (Thread false (PDo key fn)) m) Hc H0).
  rewrite ensure_call_spawn. fold m0.
  set (x1 := goto t (PLookup key fn) _).
  assert (Hc0 : crashed m0 = false) by (unfold m0; by rewrite crashed_ensure_call).
  assert (Hw0 : world m0 = world m) by apply world_ensure_call.
  assert (Ht0 : threads m0 = threads m) by apply threads_ensure_call.
  assert (Hths1 : threads x1 = threads m ++ [Thread false (PLookup key fn)]).
  { unfold x1, goto, spawn, t, next_tid. cbn [threads set_threads].
    by rewrite Ht0, alter_last. }
  assert (H1 : thread_at t false (PLookup key fn) x1).
  { unfold thread_at. rewrite Hths1. unfold t, next_tid.
    by rewrite lookup_app_r, Nat.sub_diag. }
  rewrite (step_PLookup t false key fn now x1 Hc0 H1).
  change (calls x1) with (calls m0). rewrite Hk.
  set (x2 := goto t (PCallDo (Some p) fn) x1).
  assert (Hths2 : threads x2 = threads m ++ [Thread false (PCallDo (Some p) fn)]).
  { unfold x2, goto. cbn [threads set_threads]. rewrite Hths1.
    unfold t, next_tid. by rewrite alter_last. }
  assert (H2 : thread_at t false (PCallDo (Some p) fn) x2)
    by (eapply thread_at_goto, H1).
  rewrite (step_PCallDo t false p fn now x2 c Hc0 H2 Hp).
  destruct (do_decide now c).
  - set (x3 := goto t (PUpdate p fn) x2).
    assert (H3 : thread_at t false (PUpdate p fn) x3)
      by (eapply thread_at_goto, H2).
    destruct (update_run t false p fn c now_u now_u now_u now_u now_u x3
                Hc0 H3 Hp Hg) as (Hr & Hh & Hw & Hcalls & Hcr & Hfr).
    change (world x3) with (world m0) in Hr, Hh, Hw.
    rewrite Hw0 in Hr, Hh, Hw. unfold solo_update.
    split; [done|]. split; [done|]. split; [by apply returned_at|].
    split; [|done].
    apply heap_frame_insert; [by eapply lookup_lt_Some|done|done].
  - rewrite (run_solo_update_returned t false (result c, None)).
    2:{ apply thread_at_spawn. eapply thread_at_goto, H2. }
    split; [done|]. split; [done|]. split.
    { apply returned_at, thread_at_spawn. eapply thread_at_goto, H2. }
    split; [done|]. split; [done|].
    unfold spawn, goto. cbn [threads set_threads]. rewrite Hths2.
    unfold t, next_tid. by rewrite alter_last, <- app_assoc.
  - rewrite (run_solo_update_returned t false (result c, None)).
    2:{ eapply thread_at_goto, H2. }
    split; [done|]. split; [done|]. split.
    { apply returned_at. eapply thread_at_goto, H2. }
    split; [done|]. split; [done|].
    unfold goto. cbn [threads set_threads]. rewrite Hths2.
    unfold t, next_tid. by rewrite alter_last.
Qed.

(** The first [Do] for a key, past the expiration: the new entry holds
    what the function returned if it succeeded, and is empty as before if
    it failed. *)
Lemma Do_populates key fn now now_u m :
  crashed m = false -> calls m !! key = None ->
  Int64.in_range now -> Int64.in_range now_u ->
  d_expiration m < now -> now <= now_u ->
  let p := length (heap m) in
  let c1 := store_result now_u (fn (world m)).1
              (new_call (d_expiration m) (d_updateInterval m)) in
  let m1 := Do key fn now now_u m in
  crashed m1 = false /\ calls m1 !! key = Some p /\
  heap m1 !! p = Some c1 /\ group c1 = false /\
  world m1 = (fn (world m)).2 /\
  returned (next_tid m) m1 = Some (fn (world m)).1.
Proof.
  intros Hc Hk Hn Hnu Hexp Hle p c1 m1.
  set (c0 := new_call (V := V) (d_expiration m) (d_updateInterval m)).
  assert (Hk0 : calls (ensure_call key m) !! key = Some p).
  { unfold ensure_call. rewrite Hk. apply lookup_insert_eq. }
  assert (Hp0 : heap (ensure_call key m) !! p = Some c0).
  { unfold ensure_call. rewrite Hk. cbn. unfold p.
    by rewrite lookup_app_r, Nat.sub_diag. }
  destruct (Do_run key fn now now_u m p c0 Hc Hk0 Hp0 eq_refl)
    as (Hc1 & Hcalls & Hrun).
  rewrite do_decide_Expired in Hrun.
  2:{ by rewrite (elapsed_never_populated now c0 eq_refl Hn). }
  rewrite update_fn_called in Hrun by (apply fresh_new_call; [done|lia]).
  destruct Hrun as (Hr & Hh & Hw). fold m1 in Hc1, Hcalls, Hr, Hh, Hw.
  split; [done|]. split; [by rewrite Hcalls|]. split.
  { rewrite Hh. apply list_lookup_insert_eq. by eapply lookup_lt_Some. }
  split; [|by split].
  unfold c1, store_result. by destruct (snd (fn (world m)).1).
Qed.

(** [Do] for a key the registry holds, with no call in flight. *)
Lemma Do_run_present key fn now now_u m p c :
  crashed m = false ->
  calls m !! key = Some p -> heap m !! p = Some c -> group c = false ->
  let t := next_tid m in
  let m' := Do key fn now now_u m in
  crashed m' = false /\ calls m' = calls m /\
  match do_decide now c with
  | Expired =>
      let u := update_fn now_u fn c (world m) in
      returned t m' = Some u.1.1 /\
      heap m' = <[p := u.1.2]> (heap m) /\ world m' = u.2
  | Refresh =>
      returned t m' = Some (result c, None) /\
      heap m' = heap m /\ world m' = world m /\
      threads m' = threads m ++ [Thread false (PRet (result c, None));
                                 Thread true (PUpdate p fn)]
  | Serve =>
      returned t m' = Some (result c, None) /\
      heap m' = heap m /\ world m' = world m /\
      threads m' = threads m ++ [Thread false (PRet (result c, None))]
  end.
Proof.
  intros Hc Hk Hp Hg.
  pose proof (Do_run key fn now now_u m p c Hc) as H.
  rewrite (ensure_call_present key p m Hk) in H. by apply H.
Qed.

Lemma elapsed_store now v lu c :
  Int64.in_range (now - lu) -> elapsed now (store v lu c) = now - lu.
Proof. intros H. unfold elapsed. cbn. by apply Int64Facts.sub_exact. Qed.

(** A successful call populates the cache and a call within the
    expiration (and within the refresh interval, if there is one) is
    served from it: it returns the first call's value with a nil error,
    its own function does not run, and nothing is written. *)
Theorem second_call_served_from_cache
    key fn1 fn2 v w1 now1 now1u now2 now2u m :
  crashed m = false -> calls m !! key = None ->
  Int64.in_range now1 -> Int64.in_range now1u ->
  d_expiration m < now1 -> now1 <= now1u ->
  fn1 (world m) = ((v, None), w1) ->
  Int64.in_range (now2 - now1u) ->
  now2 - now1u <= d_expiration m ->
  ~ (0 < d_updateInterval m /\ d_updateInterval m < now2 - now1u) ->
  let m1 := Do key fn1 now1 now1u m in
  let m2 := Do key fn2 now2 now2u m1 in
  returned (next_tid m) m1 = Some (v, None) /\
  returned (next_tid m1) m2 = Some (v, None) /\
  world m2 = w1 /\ heap m2 = heap m1 /\ calls m2 = calls m1.
Proof.
  intros Hc Hk Hn Hnu Hexp Hle Hfn Hr2 Hin Hno m1 m2.
  destruct (Do_populates key fn1 now1 now1u m Hc Hk Hn Hnu Hexp Hle)
    as (Hc1 & Hk1 & Hp1 & Hg1 & Hw1 & Hret1).
  fold m1 in Hc1, Hk1, Hp1, Hw1, Hret1. rewrite Hfn in Hp1, Hg1, Hw1, Hret1.
  cbn [fst snd store_result] in Hp1, Hg1, Hw1, Hret1.
  destruct (Do_run_present key fn2 now2 now2u m1 _ _ Hc1 Hk1 Hp1 Hg1)
    as (_ & Hcalls & Hrun).
  rewrite do_decide_Serve in Hrun.
  - destruct Hrun as (Hr & Hh & Hw & _). by rewrite Hw1 in Hw.
  - by rewrite elapsed_store.
  - by rewrite elapsed_store.
Qed.

(** Past the expiration the cached value is not served: the next call
    runs its own function synchronously, returns what it returned, and a
    success replaces the cached value. *)
Theorem second_call_after_expiration_runs_fn
    key fn1 fn2 v w1 now1 now1u now2 now2u m :
  crashed m = false -> calls m !! key = None ->
  Int64.in_range now1 -> Int64.in_range now1u ->
  d_expiration m < now1 -> now1 <= now1u ->
  fn1 (world m) = ((v, None), w1) ->
  Int64.in_range (now2 - now1u) -> Int64.in_range (now2u - now1u) ->
  d_expiration m < now2 - now1u -> now2 <= now2u ->
  let m1 := Do key fn1 now1 now1u m in
  let m2 := Do key fn2 now2 now2u m1 in
  returned (next_tid m1) m2 = Some (fn2 w1).1 /\
  world m2 = (fn2 w1).2 /\
  heap m2 !! length (heap m) =
    Some (store_result now2u (fn2 w1).1
            (store v now1u (new_call (d_expiration m) (d_updateInterval m)))).
Proof.
  intros Hc Hk Hn Hnu Hexp Hle Hfn Hr2 Hr2u Hout Hle2 m1 m2.
  destruct (Do_populates key fn1 now1 now1u m Hc Hk Hn Hnu Hexp Hle)
    as (Hc1 & Hk1 & Hp1 & Hg1 & Hw1 & Hret1).
  fold m1 in Hc1, Hk1, Hp1, Hw1, Hret1. rewrite Hfn in Hp1, Hg1, Hw1, Hret1.
  cbn [fst snd store_result] in Hp1, Hg1, Hw1, Hret1.
  destruct (Do_run_present key fn2 now2 now2u m1 _ _ Hc1 Hk1 Hp1 Hg1)
    as (_ & Hcalls & Hrun).
  rewrite do_decide_Expired in Hrun by (by rewrite elapsed_store).
  rewrite update_fn_called, Hw1 in Hrun.
  - destruct Hrun as (Hr & Hh & Hw). split; [done|]. split; [done|].
    fold m2 in Hh. rewrite Hh.
    apply list_lookup_insert_eq. by eapply lookup_lt_Some.
  - unfold fresh. rewrite elapsed_store by done. cbn.
    by rewrite (proj2 (Z.ltb_ge (now2u - now1u) (d_expiration m))) by lia.
Qed.

(** A failure is not cached: after a call whose function failed, the
    next call runs its own function and returns what that returns. *)
Theorem call_after_failure_runs_fn
    key fn1 fn2 v e w1 now1 now1u now2 now2u m :
  crashed m = false -> calls m !! key = None ->
  Int64.in_range now1 -> Int64.in_range now1u ->
  d_expiration m < now1 -> now1 <= now1u ->
  fn1 (world m) = ((v, Some e), w1) ->
  Int64.in_range now2 -> Int64.in_range now2u ->
  d_expiration m < now2 -> now2 <= now2u ->
  let m1 := Do key fn1 now1 now1u m in
  let m2 := Do key fn2 now2 now2u m1 in
  returned (next_tid m) m1 = Some (v, Some e) /\
  heap m1 !! length (heap m) =
    Some (new_call (d_expiration m) (d_updateInterval m)) /\
  returned (next_tid m1) m2 = Some (fn2 w1).1 /\
  world m2 = (fn2 w1).2.
Proof.
  intros Hc Hk Hn Hnu Hexp Hle Hfn Hn2 Hn2u Hexp2 Hle2 m1 m2.
  destruct (Do_populates key fn1 now1 now1u m Hc Hk Hn Hnu Hexp Hle)
    as (Hc1 & Hk1 & Hp1 & Hg1 & Hw1 & Hret1).
  fold m1 in Hc1, Hk1, Hp1, Hw1, Hret1. rewrite Hfn in Hp1, Hg1, Hw1, Hret1.
  cbn [fst snd store_result] in Hp1, Hg1, Hw1, Hret1.
  destruct (Do_run_present key fn2 now2 now2u m1 _ _ Hc1 Hk1 Hp1 Hg1)
    as (_ & Hcalls & Hrun).
  rewrite do_decide_Expired in Hrun
    by (by rewrite elapsed_never_populated).
  rewrite update_fn_called, Hw1 in Hrun
    by (apply fresh_new_call; [done|lia]).
  destruct Hrun as (Hr & Hh & Hw). by repeat split.
Qed.

(** [Do] never hands out a cached error: when it returns a non-nil error
    the caller's own function has run, on the synchronous path, and the
    pair returned is that function's. *)
Theorem returned_error_is_fresh key fn now now_u m p c r e :
  crashed m = false ->
  calls (ensure_call key m) !! key = Some p ->
  heap (ensure_call key m) !! p = Some c -> group c = false ->
  let m' := Do key fn now now_u m in
  returned (next_tid m) m' = Some r -> r.2 = Some e ->
  do_decide now c = Expired /\ fresh now_u c = false /\
  r = (fn (world m)).1 /\ world m' = (fn (world m)).2.
Proof.
  intros Hc Hk Hp Hg m' Hret He.
  destruct (Do_run key fn now now_u m p c Hc Hk Hp Hg) as (_ & _ & Hrun).
  fold m' in Hrun. destruct (do_decide now c).
  - destruct Hrun as (Hr & _ & Hw). rewrite Hret in Hr. injection Hr as ->.
    unfold update_fn in *. destruct (fresh now_u c); [done|].
    destruct (fn (world m)) as [r' w']. by repeat split.
  - destruct Hrun as (Hr & _). rewrite Hret in Hr. by injection Hr as ->.
  - destruct Hrun as (Hr & _). rewrite Hret in Hr. by injection Hr as ->.
Qed.


(** With an expiration and a refresh interval that are not negative,
    [lastUpdate] never moves backwards: whatever the update path does
    with an entry, the entry's [lastUpdate] afterwards is at least what
    it was (the difference of clock reading and [lastUpdate] being
    representable). *)
Theorem update_never_rewinds_lastUpdate t d p fn c n0 now n1 n2 n3 m :
  crashed m = false ->
  thread_at t d (PUpdate p fn) m ->
  heap m !! p = Some c -> group c = false ->
  0 <= expiration c -> 0 <= updateInterval c ->
  Int64.in_range (now - lastUpdate c) ->
  let m' := run [(t, n0); (t, now); (t, n1); (t, n2); (t, n3)] m in
  exists c', heap m' !! p = Some c' /\ lastUpdate c <= lastUpdate c'.
Proof.
  intros Hc Ht Hp Hg Hexp Hupd Hr m'.
  destruct (update_run t d p fn c n0 now n1 n2 n3 m Hc Ht Hp Hg)
    as (_ & Hh & _).
  eexists. split; [exact Hh|].
  unfold update_fn, fresh, elapsed. rewrite (Int64Facts.sub_exact _ _ Hr).
  destruct (Z.ltb_spec (now - lastUpdate c) (expiration c)) as [H1|H1];
    cbn [andb].
  - destruct (Z.eqb_spec (updateInterval c) 0) as [H2|H2]; cbn [orb].
    { cbn. lia. }
    destruct (Z.ltb_spec (now - lastUpdate c) (updateInterval c)) as [H3|H3].
    { cbn. lia. }
    destruct (fn (world m)) as [[v [e|]] w']; cbn; lia.
  - destruct (fn (world m)) as [[v [e|]] w']; cbn; lia.
Qed.

(** Between the refresh interval and the expiration the cached value is
    served at once and refreshed behind the caller's back: the call
    returns the old value without having run its function, and leaves a
    detached goroutine which, run on its own, calls the function and
    replaces the cached value; the caller's return stays what it was. *)
Theorem stale_call_refreshes_in_background
    key fn1 fn2 v v2 w1 w2 now1 now1u now2 now2u nowb m :
  crashed m = false -> calls m !! key = None ->
  Int64.in_range now1 -> Int64.in_range now1u ->
  d_expiration m < now1 -> now1 <= now1u ->
  fn1 (world m) = ((v, None), w1) ->
  Int64.in_range (now2 - now1u) ->
  now2 - now1u <= d_expiration m ->
  0 < d_updateInterval m -> d_updateInterval m < now2 - now1u ->
  Int64.in_range (nowb - now1u) -> now2 <= nowb ->
  fn2 w1 = ((v2, None), w2) ->
  let m1 := Do key fn1 now1 now1u m in
  let m2 := Do key fn2 now2 now2u m1 in
  let g := S (next_tid m1) in
  let m3 := run (solo_update g nowb) m2 in
  returned (next_tid m1) m2 = Some (v, None) /\
  world m2 = w1 /\ heap m2 = heap m1 /\
  thread_at g true (PUpdate (length (heap m)) fn2) m2 /\
  returned (next_tid m1) m3 = Some (v, None) /\
  world m3 = w2 /\
  heap m3 !! length (heap m) =
    Some (store v2 nowb
            (store v now1u (new_call (d_expiration m) (d_updateInterval m)))).
Proof.
  intros Hc Hk Hn Hnu Hexp Hle Hfn Hr2 Hin Hu0 Hu Hrb Hleb Hfn2 m1 m2 g m3.
  destruct (Do_populates key fn1 now1 now1u m Hc Hk Hn Hnu Hexp Hle)
    as (Hc1 & Hk1 & Hp1 & Hg1 & Hw1 & Hret1).
  fold m1 in Hc1, Hk1, Hp1, Hw1, Hret1. rewrite Hfn in Hp1, Hg1, Hw1, Hret1.
  cbn [fst snd store_result] in Hp1, Hg1, Hw1, Hret1.
  set (c1 := store v now1u _) in *.
  destruct (Do_run_present key fn2 now2 now2u m1 _ _ Hc1 Hk1 Hp1 Hg1)
    as (Hc2 & Hcalls & Hrun).
  rewrite do_decide_Refresh in Hrun;
    [|unfold c1; rewrite ?elapsed_store by done; done..].
  destruct Hrun as (Hr & Hh & Hw & Hths). fold m2 in Hc2, Hr, Hh, Hw, Hths.
  assert (Hg : thread_at g true (PUpdate (length (heap m)) fn2) m2).
  { unfold thread_at. rewrite Hths. unfold g, next_tid.
    rewrite lookup_app_r by lia.
    by replace (S (length (threads m1)) - length (threads m1))%nat with 1%nat
      by lia. }
  assert (Hp2 : heap m2 !! length (heap m) = Some c1) by (by rewrite Hh).
  destruct (update_run g true (length (heap m)) fn2 c1 nowb nowb nowb nowb nowb
              m2 Hc2 Hg Hp2 Hg1) as (_ & Hh3 & Hw3 & _).
  rewrite update_fn_called, Hw, Hw1, Hfn2 in Hh3, Hw3.
  2,3: unfold fresh, c1; rewrite elapsed_store by done; cbn;
       rewrite (proj2 (Z.eqb_neq (d_updateInterval m) 0)) by lia;
       rewrite (proj2 (Z.ltb_ge (nowb - now1u) (d_updateInterval m))) by lia;
       by rewrite andb_false_r.
  split; [done|]. split; [by rewrite Hw, Hw1|]. split; [done|].
  split; [done|]. split; [|by split].
  apply returned_at, run_returned. by apply returned_at.
Qed.

(** [Remove] does not cancel an update in flight: the leader completes,
    returns, and writes into the entry it holds, while the key is gone
    from the registry. *)
Theorem Remove_does_not_cancel_update
    l d rm drm key p fn c n now n1 n2 n3 m :
  crashed m = false ->
  thread_at l d (PClosure p fn) m ->
  thread_at rm drm (PRemove key) m ->
  heap m !! p = Some c ->
  let m' := run [(rm, n); (l, now); (l, n1); (l, n2); (l, n3)] m in
  let u := update_fn now fn c (world m) in
  calls m' !! key = None /\
  thread_at l d (PRet u.1.1) m' /\
  heap m' !! p = Some (set_group false u.1.2) /\
  world m' = u.2.
Proof.
  intros Hc Hl Hrm Hp. rewrite run_cons.
  rewrite (step_PRemove rm drm key n m Hc Hrm).
  set (m1 := goto rm PExit _).
  assert (Hl1 : thread_at l d (PClosure p fn) m1).
  { by apply (thread_at_goto_other rm l drm d (PRemove key)). }
  destruct (leader_run l d p fn c now n1 n2 n3 m1 Hc Hl1 Hp)
    as (Hr & Hh & Hw & Hk & _).
  split; [|by split]. rewrite Hk. apply lookup_delete_eq.
Qed.

End Sequential.

(** ** What every schedule preserves *)
Section Invariants.

Context {V E W : Type}.
Implicit Types (m : machine (V := V) (E := E) (W := W)).
Implicit Types (c : call (V := V)) (fn : Fn (V := V) (E := E) (W := W)).
Implicit Types (t l j : tid) (p : loc) (r : iface (V := V) * error (E := E)).
Implicit Types (q : pc (V := V) (E := E) (W := W)).
Implicit Types (th : thread (V := V) (E := E) (W := W)).
Implicit Types (ks : gmap string loc).
Implicit Types (ths : list (thread (V := V) (E := E) (W := W))).

Lemma registry_ok_ext m m' :
  calls m' = calls m -> length (heap m') = length (heap m) ->
  registry_ok m -> registry_ok m'.
Proof.
  intros Hk Hl [Hv Hi]. split.
  - intros k p. rewrite Hk, Hl. apply Hv.
  - intros k k' p. rewrite Hk. apply Hi.
Qed.

Lemma registry_ok_ensure_call key m :
  registry_ok m -> registry_ok (ensure_call key m).
Proof.
  intros [Hv Hi]. unfold ensure_call.
  destruct (calls m !! key) as [p|] eqn:Hk; [done|]. split.
  - intros k p. cbn. rewrite length_app. cbn.
    destruct (decide (key = k)) as [<-|Hne].
    + rewrite lookup_insert_eq. intros [= <-]. lia.
    + rewrite lookup_insert_ne by done. intros H. apply Hv in H. lia.
  - intros k k' p. cbn.
    destruct (decide (key = k)) as [<-|Hne];
      destruct (decide (key = k')) as [<-|Hne']; [done| | |].
    + rewrite lookup_insert_eq, lookup_insert_ne by done.
      intros [= <-] H. apply Hv in H. lia.
    + rewrite lookup_insert_ne, lookup_insert_eq by done.
      intros H [= <-]. apply Hv in H. lia.
    + rewrite !lookup_insert_ne by done. apply Hi.
Qed.

Lemma registry_ok_delete key m :
  registry_ok m -> registry_ok (set_calls (delete key) m).
Proof.
  intros [Hv Hi]. split.
  - intros k p. cbn. intros H. apply lookup_delete_Some in H as [_ H].
    by apply (Hv k).
  - intros k k' p. cbn. intros H H'.
    apply lookup_delete_Some in H as [_ H].
    apply lookup_delete_Some in H' as [_ H']. by apply (Hi k k' p).
Qed.

Lemma registry_ok_step t now m : registry_ok m -> registry_ok (step t now m).
Proof.
  intros Hok. unfold step.
  destruct (crashed m); [done|].
  destruct (threads m !! t) as [[d q]|]; [|done]. cbn [at_pc].
  destruct q as [key fn|key fn|[p|] fn|p fn|p fn|p fn n0|p n0 r|p r|p|key|r| |];
    try done.
  - by apply (registry_ok_ext (ensure_call key m)), registry_ok_ensure_call.
  - destruct (heap m !! p) as [c|]; [|done]. by destruct (do_decide now c).
  - destruct (heap m !! p) as [c|]; [|done]. destruct (group c); [done|].
    apply (registry_ok_ext m); [done| |done]. cbn. apply length_insert.
  - destruct (heap m !! p) as [c|]; [|done]. by destruct (fresh now c).
  - by destruct (fn (world m)) as [r w'].
  - apply (registry_ok_ext m); [done| |done]. cbn. apply length_alter.
  - apply (registry_ok_ext m); [done| |done]. cbn. apply length_alter.
  - by apply (registry_ok_ext (set_calls (delete key) m)), registry_ok_delete.
Qed.

(** Whatever the goroutines, the schedule, the clock and the functions:
    every key of the registry points to an allocated entry and distinct
    keys have distinct entries. *)
Theorem registry_ok_run s m : registry_ok m -> registry_ok (run s m).
Proof.
  revert m. induction s as [|[t now] s IH]; intros m Hok; cbn [run]; [done|].
  by apply IH, registry_ok_step.
Qed.

(** Keys are independent: a [Do] for one key leaves the registry entry of
    every other key, and what that entry holds, as they were. *)
Theorem Do_leaves_other_keys key key' p' fn now now_u m :
  crashed m = false -> registry_ok m ->
  (forall p c, calls m !! key = Some p -> heap m !! p = Some c ->
               group c = false) ->
  key' <> key -> calls m !! key' = Some p' ->
  let m' := Do key fn now now_u m in
  calls m' !! key' = Some p' /\ heap m' !! p' = heap m !! p'.
Proof.
  intros Hc [Hv Hi] Hidle Hne Hk' m'.
  assert (Hlt : (p' < length (heap m))%nat) by (by apply (Hv key')).
  assert (H0 : exists p c,
             calls (ensure_call key m) !! key = Some p /\
             heap (ensure_call key m) !! p = Some c /\ group c = false /\
             p <> p' /\
             calls (ensure_call key m) !! key' = Some p' /\
             heap (ensure_call key m) !! p' = heap m !! p').
  { unfold ensure_call. destruct (calls m !! key) as [p|] eqn:Hk.
    - destruct (lookup_lt_is_Some_2 (heap m) p (Hv key p Hk)) as [c Hp].
      exists p, c. repeat split; try done; [by eapply Hidle|].
      intros ->. by apply Hne, (Hi key' key p').
    - eexists (length (heap m)), _. cbn. rewrite lookup_insert_eq.
      rewrite lookup_insert_ne by done.
      rewrite lookup_app_r, Nat.sub_diag by done.
      rewrite lookup_app_l by done. repeat split; try done. lia. }
  destruct H0 as (p & c & Hk0 & Hp0 & Hg & Hpp & Hk0' & Hp0').
  destruct (Do_run key fn now now_u m p c Hc Hk0 Hp0 Hg) as (_ & Hcalls & Hrun).
  fold m' in Hcalls, Hrun. split; [by rewrite Hcalls|].
  destruct (do_decide now c).
  - destruct Hrun as (_ & -> & _). by rewrite list_lookup_insert_ne.
  - by destruct Hrun as (_ & -> & _).
  - by destruct Hrun as (_ & -> & _).
Qed.






(** *** One call in flight per entry *)

Lemma flights_ok_alter t d q q' ths (h h' : list (call (V := V))) :
  flights_ok ths h ->
  ths !! t = Some (Thread d q) ->
  (forall p c, h !! p = Some c -> group c = true ->
     exists c', h' !! p = Some c' /\ group c' = true) ->
  (forall p, leading p q' || blocked p q' = true ->
     exists c', h' !! p = Some c' /\ group c' = true) ->
  (forall p, leading p q' = true ->
     leading p q = true \/
     forall t2 th2, ths !! t2 = Some th2 -> leading p (at_pc th2) = false) ->
  flights_ok (alter (fun th => Thread (detached th) q') t ths) h'.
Proof.
  intros [Hin Huniq] Ht Hkeep Hnew Hlead. split.
  - intros t' th' p. rewrite list_lookup_alter.
    destruct (decide (t = t')) as [<-|Hne].
    + rewrite Ht. cbn. intros [= <-]. cbn. apply Hnew.
    + intros Hth' Hp. destruct (Hin t' th' p Hth' Hp) as (c & Hc & Hg).
      by apply (Hkeep p c).
  - intros t1 t2 th1 th2 p. rewrite !list_lookup_alter.
    destruct (decide (t = t1)) as [<-|Hne1];
      destruct (decide (t = t2)) as [<-|Hne2]; [done| | |by apply Huniq].
    + rewrite Ht. cbn. intros [= <-] H2 Hl1 Hl2. cbn in Hl1.
      destruct (Hlead p Hl1) as [Hl|Hno].
      * by apply (Huniq t t2 (Thread d q) th2 p).
      * by rewrite (Hno t2 th2 H2) in Hl2.
    + rewrite Ht. cbn. intros H1 [= <-] Hl1 Hl2. cbn in Hl2.
      destruct (Hlead p Hl2) as [Hl|Hno].
      * by apply (Huniq t1 t th1 (Thread d q) p).
      * by rewrite (Hno t1 th1 H1) in Hl1.
Qed.

(** A goroutine moves on to a point outside [c.group.Do]. *)
Lemma flights_ok_leave t d q q' ths (h : list (call (V := V))) :
  flights_ok ths h -> ths !! t = Some (Thread d q) ->
  (forall p, leading p q' || blocked p q' = false) ->
  flights_ok (alter (fun th => Thread (detached th) q') t ths) h.
Proof.
  intros Hok Ht Hout. apply (flights_ok_alter t d q q' ths h h Hok Ht).
  - intros p c Hc Hg. by exists c.
  - intros p Hp. by rewrite Hout in Hp.
  - intros p Hl. specialize (Hout p). by rewrite Hl in Hout.
Qed.

Lemma flights_ok_app ths th (h : list (call (V := V))) :
  flights_ok ths h ->
  (forall p, leading p (at_pc th) || blocked p (at_pc th) = false) ->
  flights_ok (ths ++ [th]) h.
Proof.
  intros [Hin Huniq] Hout.
  assert (Hold : forall t th' p, (ths ++ [th]) !! t = Some th' ->
            leading p (at_pc th') || blocked p (at_pc th') = true ->
            ths !! t = Some th').
  { intros t th' p Hl Hp. apply lookup_app_Some in Hl as [Hl|[_ Hl]]; [done|].
    apply list_lookup_singleton_Some in Hl as [_ <-].
    by rewrite Hout in Hp. }
  split.
  - intros t th' p Hl Hp.
    apply (Hin t th' p); [by apply (Hold t th' p)|done].
  - intros t1 t2 th1 th2 p H1 H2 Hl1 Hl2.
    apply (Huniq t1 t2 th1 th2 p); [| |done|done].
    + apply (Hold t1 th1 p H1). by rewrite Hl1.
    + apply (Hold t2 th2 p H2). by rewrite Hl2.
Qed.

Lemma flights_ok_grow ths (h : list (call (V := V))) c :
  flights_ok ths h -> flights_ok ths (h ++ [c]).
Proof.
  intros [Hin Huniq]. split; [|done].
  intros t th p Ht Hp. destruct (Hin t th p Ht Hp) as (c' & Hc' & Hg).
  exists c'. split; [|done]. rewrite lookup_app_l; [done|].
  by eapply lookup_lt_Some.
Qed.

Lemma leading_eq p p' q : leading p q = true -> leading p' q = true -> p = p'.
Proof.
  destruct q; cbn; try done; intros H1 H2;
    apply Nat.eqb_eq in H1; apply Nat.eqb_eq in H2; congruence.
Qed.

(** singleflight publishes the result of the call for entry [p]. *)
Lemma flights_ok_finish t d p r ths (h : list (call (V := V))) :
  flights_ok ths h -> ths !! t = Some (Thread d (PFinish p r)) ->
  flights_ok (alter (fun th => Thread (detached th) (PRet r)) t
                (wake p r <$> ths))
             (alter (set_group false) p h).
Proof.
  intros [Hin Huniq] Ht.
  assert (Hold : forall t' th' p0,
            (alter (fun th => Thread (detached th) (PRet r)) t
               (wake p r <$> ths)) !! t' = Some th' ->
            leading p0 (at_pc th') || blocked p0 (at_pc th') = true ->
            ths !! t' = Some th' /\ t' <> t /\ p0 <> p).
  { intros t' th' p0. destruct (decide (t = t')) as [<-|Hne].
    { rewrite list_lookup_alter_eq, list_lookup_fmap, Ht. cbn.
      by intros [= <-]. }
    rewrite list_lookup_alter_ne, list_lookup_fmap by done.
    destruct (ths !! t') as [[d0 q0]|] eqn:Ht'; [|done].
    cbn [fmap option_fmap option_map]. intros [= <-] Hp.
    assert (Hw : wake p r (Thread d0 q0) = Thread d0 q0).
    { unfold wake. cbn [at_pc detached].
      destruct q0 as [| | | | | | | |k| | | |]; try done.
      destruct (Nat.eqb p k) eqn:Hpk; [|done]. exfalso.
      unfold wake in Hp. cbn [at_pc detached] in Hp.
      rewrite Hpk in Hp. by cbn in Hp. }
    rewrite Hw in Hp |- *. cbn [at_pc] in Hp.
    split; [done|]. split; [done|].
    intros ->. apply orb_true_iff in Hp as [Hl|Hb].
    - apply Hne.
      apply (Huniq t t' (Thread d (PFinish p r)) (Thread d0 q0) p);
        [done|done| |done].
      cbn. apply Nat.eqb_refl.
    - destruct q0 as [| | | | | | | |k| | | |]; try done.
      cbn in Hb. apply Nat.eqb_eq in Hb as ->.
      unfold wake in Hw. cbn [at_pc detached] in Hw.
      by rewrite Nat.eqb_refl in Hw. }
  split.
  - intros t' th' p0 Hl Hp. destruct (Hold t' th' p0 Hl Hp) as (Ho & _ & Hne).
    destruct (Hin t' th' p0 Ho Hp) as (c & Hc & Hg). exists c.
    by rewrite list_lookup_alter_ne.
  - intros t1 t2 th1 th2 p0 H1 H2 Hl1 Hl2.
    destruct (Hold t1 th1 p0 H1) as (Ho1 & _); [by rewrite Hl1|].
    destruct (Hold t2 th2 p0 H2) as (Ho2 & _); [by rewrite Hl2|].
    by apply (Huniq t1 t2 th1 th2 p0).
Qed.

Lemma single_flight_step t now m : single_flight m -> single_flight (step t now m).
Proof.
  unfold single_flight. intros Hok. pose proof Hok as [Hin Huniq]. unfold step.
  destruct (crashed m); [done|].
  destruct (threads m !! t) as [[d q]|] eqn:Ht; [|done]. cbn [at_pc].
  destruct q as [key fn|key fn|[p|] fn|p fn|p fn|p fn n0|p n0 r|p r|p|key|r| |];
    try done.
  - (* lines 34-38 *)
    cbn [threads heap goto set_threads]. rewrite threads_ensure_call.
    apply (flights_ok_leave t d (PDo key fn)); [|done|done].
    unfold ensure_call. destruct (calls m !! key); [done|]. cbn.
    by apply flights_ok_grow.
  - by apply (flights_ok_leave t d (PLookup key fn)).
  - destruct (heap m !! p) as [c|]; [|done]. destruct (do_decide now c).
    + by apply (flights_ok_leave t d (PCallDo (Some p) fn)).
    + cbn. apply flights_ok_app; [|done].
      by apply (flights_ok_leave t d (PCallDo (Some p) fn)).
    + by apply (flights_ok_leave t d (PCallDo (Some p) fn)).
  - by apply (flights_ok_leave t d (PCallDo None fn)).
  - (* c.group.Do: join the call in flight, or start one *)
    destruct (heap m !! p) as [c|] eqn:Hp; [|done].
    destruct (group c) eqn:Hg; cbn.
    + apply (flights_ok_alter t d (PUpdate p fn) (PWait p) _ _ _ Hok Ht).
      * intros p0 c0 Hc0 Hg0. by exists c0.
      * intros p0 H0. cbn in H0. apply Nat.eqb_eq in H0 as <-. by exists c.
      * done.
    + apply (flights_ok_alter t d (PUpdate p fn) (PClosure p fn) _ _ _ Hok Ht).
      * intros p0 c0 Hc0 Hg0. exists c0. split; [|done].
        rewrite list_lookup_insert_ne; [done|]. intros <-.
        rewrite Hp in Hc0. injection Hc0 as <-. by rewrite Hg in Hg0.
      * intros p0 H0. cbn in H0. rewrite orb_false_r in H0.
        apply Nat.eqb_eq in H0 as <-. exists (set_group true c).
        split; [|done]. apply list_lookup_insert_eq. by eapply lookup_lt_Some.
      * intros p0 H0. cbn in H0. apply Nat.eqb_eq in H0 as <-. right.
        intros t2 th2 H2. destruct (leading p (at_pc th2)) eqn:Hl; [|done].
        destruct (Hin t2 th2 p H2) as (c' & Hc' & Hg'); [by rewrite Hl|].
        rewrite Hp in Hc'. injection Hc' as <-. by rewrite Hg in Hg'.
  - (* lines 78-82 *)
    destruct (heap m !! p) as [c|] eqn:Hp; [|done].
    destruct (fresh now c); cbn;
      (eapply (flights_ok_alter t d (PClosure p fn) _ _ _ _ Hok Ht);
       [ intros p0 c0 Hc0 Hg0; by exists c0
       | intros p0 H0; apply (Hin t _ p0 Ht); exact H0
       | intros p0 H0; by left ]).
  - (* line 83 *)
    destruct (fn (world m)) as [r w']. cbn.
    eapply (flights_ok_alter t d (PCallFn p fn n0) _ _ _ _ Hok Ht).
    + intros p0 c0 Hc0 Hg0. by exists c0.
    + intros p0 H0. apply (Hin t _ p0 Ht). exact H0.
    + intros p0 H0. by left.
  - (* lines 84-89 *)
    cbn. eapply (flights_ok_alter t d (PStore p n0 r) _ _ _ _ Hok Ht).
    + intros p0 c0 Hc0 Hg0. rewrite list_lookup_alter.
      destruct (decide (p = p0)) as [<-|Hne]; [|by exists c0].
      rewrite Hc0. cbn. eexists. split; [done|].
      unfold store_result. by destruct (snd r).
    + intros p0 H0. destruct (Hin t _ p0 Ht H0) as (c0 & Hc0 & Hg0).
      rewrite list_lookup_alter.
      destruct (decide (p = p0)) as [<-|Hne]; [|by exists c0].
      rewrite Hc0. cbn. eexists. split; [done|].
      unfold store_result. by destruct (snd r).
    + intros p0 H0. by left.
  - (* the call is published *)
    cbn. by apply (flights_ok_finish t d p r).
  - by apply (flights_ok_leave t d (PRemove key)).
Qed.

(** Whatever the goroutines, the schedule, the clock and the functions:
    no two goroutines are ever inside the function guarded by
    [c.group.Do] for the same entry, and a caller blocked in
    [c.group.Do] is blocked on an entry whose call is in flight. *)
Theorem single_flight_run s m : single_flight m -> single_flight (run s m).
Proof.
  revert m. induction s as [|[t now] s IH]; intros m Hok; cbn [run]; [done|].
  by apply IH, single_flight_step.
Qed.

End Invariants.

(** ** The examples of the package, replayed *)
Module Replay.
Import Examples.

(* ExampleDispatcher_Do_multiple *)
Example Do_multiple :
  let d := NewDispatcher minute (10 * second) 0%nat in
  let m1 := Do "key" (returning 1) t0 t0 d in
  let m2 := Do "key" (returning 2) (t0 + 1) (t0 + 1) m1 in
  let m3 := Do "key" (returning 3) (t0 + 2) (t0 + 2) m2 in
  returned 0%nat m3 = Some (Some 1, None) /\
  returned 1%nat m3 = Some (Some 1, None) /\
  returned 2%nat m3 = Some (Some 1, None) /\
  world m3 = 1%nat.
Proof. vm_compute. auto. Qed.

(* ExampleDispatcher_Remove *)
Example Do_Remove_Do :
  let d := NewDispatcher minute (10 * second) 0%nat in
  let m1 := Do "key" (returning 1) t0 t0 d in
  let m2 := Remove "key" m1 in
  let m3 := Do "key" (returning 2) (t0 + 1) (t0 + 1) m2 in
  returned 0%nat m3 = Some (Some 1, None) /\
  returned 2%nat m3 = Some (Some 2, None) /\
  world m3 = 2%nat.
Proof. vm_compute. auto. Qed.


(* ExampleNewDispatcher_expiration: one nanosecond of expiration, every
   call a nanosecond or more after the one before *)
Example Do_expiration :
  let d := NewDispatcher 1 0 0%nat in
  let m1 := Do "key" (returning 1) t0 t0 d in
  let m2 := Do "key" (returning 2) (t0 + 2) (t0 + 2) m1 in
  let m3 := Do "key" (returning 3) (t0 + 4) (t0 + 4) m2 in
  returned 0%nat m3 = Some (Some 1, None) /\
  returned 1%nat m3 = Some (Some 2, None) /\
  returned 2%nat m3 = Some (Some 3, None) /\
  world m3 = 3%nat.
Proof. vm_compute. auto. Qed.

(* ExampleNewDispatcher_updateInterval: a minute of expiration, one
   nanosecond of refresh interval; the second and third call each return
   what is cached and leave a goroutine (3, then 5) that refreshes it *)
Example Do_updateInterval :
  let d := NewDispatcher minute 1 0%nat in
  let m1 := Do "key" (returning 1) t0 t0 d in
  let m2 := Do "key" (returning 2) (t0 + 2) (t0 + 2) m1 in
  let m2' := run (solo_update 2%nat (t0 + 3)) m2 in
  let m3 := Do "key" (returning 3) (t0 + 5) (t0 + 5) m2' in
  let m3' := run (solo_update 4%nat (t0 + 6)) m3 in
  returned 0%nat m3' = Some (Some 1, None) /\
  returned 1%nat m3' = Some (Some 1, None) /\
  returned 3%nat m3' = Some (Some 2, None) /\
  world m3' = 3%nat /\
  result <$> heap m3' !! 0%nat = Some (Some 3).
Proof. vm_compute. auto. Qed.

End Replay.

(** ** The properties at concrete inputs *)
Module Cases.
Import Examples.


(** C4. [NewDispatcher(time.Minute, -1)]; two callers of [Do("key", ...)]
    both take their snapshot of the never-populated entry at [t0] and find
    it expired.  The first runs the update path: its function stores 1
    with [lastUpdate = t0].  The second enters the update path a second
    later: the elapsed time is below the expiration and there is no
    positive refresh interval, so the entry is fresh as the specification
    words it, and the function should be skipped.  The guard on line 79
    tests [updateInterval == 0] where line 70 tests [updateInterval > 0]:
    with -1 it finds the entry stale, the second function runs too and
    the second caller returns 2, not the cached 1.  With an interval of 0
    the same schedule skips the second function. *)
Theorem negative_interval_defeats_recheck :
  let s := one_after_the_other t0 (t0 + second) in
  let before := run (take 11 s) (two_callers minute (-1) (returning 1) (returning 2)) in
  let m := run s (two_callers minute (-1) (returning 1) (returning 2)) in
  let m0 := run s (two_callers minute 0 (returning 1) (returning 2)) in
  pc_of 1 before = Some (PUpdate 0%nat (returning 2)) /\
  (exists c, heap before !! 0%nat = Some c /\
             result c = Some 1 /\ lastUpdate c = t0 /\
             fresh_as_specified (t0 + second) c = true /\
             fresh (t0 + second) c = false) /\
  returned 0 m = Some (Some 1, None) /\
  returned 1 m = Some (Some 2, None) /\ world m = 2%nat /\
  returned 1 m0 = Some (Some 1, None) /\ world m0 = 1%nat.
Proof.
  cbv zeta. split; [by vm_compute|]. split.
  - eexists. split; [vm_compute; reflexivity|]. by vm_compute.
  - by vm_compute.
Qed.

(** C8. The entry for "key" exists.  One goroutine calls [Do("key", ...)],
    another [Remove("key")].  [Do] runs lines 34-38 and finds the entry;
    [Remove] runs; [Do] then reads [d.calls["key"]] on line 40, outside
    the lock, gets nil, and [call.do] dereferences it: the program
    panics.  The caller neither used the old entry nor created a new
    one. *)
Theorem Do_racing_Remove_panics :
  let m := run [(1%nat, t0); (2%nat, t0); (1%nat, t0); (1%nat, t0)] Do_and_Remove in
  calls Do_and_Remove !! "key" = Some 0%nat /\
  pc_of 1 Do_and_Remove = Some (PDo "key" (returning 2)) /\
  pc_of 2 Do_and_Remove = Some (PRemove "key") /\
  crashed m = true /\ pc_of 1 m = Some PPanic /\ returned 1 m = None /\
  length (heap m) = 1%nat.
Proof. cbv zeta. repeat split; by vm_compute. Qed.

(** C2 does not hold of every pair of overlapping calls.  Two callers of
    [Do("key", ...)] with a minute of expiration both take their snapshot of
    the never-populated entry and find it expired; both are inside [Do] at
    the same time.  The first runs the update path and its function fails;
    the call in flight is over when the second enters the update path, so it
    becomes a leader itself, finds the entry still empty, and runs its own
    function.  The functions ran twice and the callers got the results of
    different runs. *)
Lemma expired_callers_run_fn_twice :
  let start := two_callers minute 0 (failing 1 "boom") (failing 2 "boom") in
  let s := one_after_the_other t0 t0 in
  let both_in := run (take 6 s) start in
  let m := run s start in
  pc_of 0 both_in = Some (PUpdate 0%nat (failing 1 "boom")) /\
  pc_of 1 both_in = Some (PUpdate 0%nat (failing 2 "boom")) /\
  heap m !! 0%nat = Some (new_call minute 0) /\
  returned 0 m = Some (Some 1, Some "boom") /\
  returned 1 m = Some (Some 2, Some "boom") /\
  returned 0 m <> returned 1 m /\
  world m = 2%nat.
Proof. cbv zeta. repeat split; by vm_compute. Qed.




(** *** The theorems applied *)


(** C3 two minutes after the last update, the function failing. *)
Lemma failed_update_leaves_cache_witness :
  let fn := failing 7 "boom" in
  let m := standing (PUpdate 0%nat fn) in
  let now := t0 + 2 * minute in
  crashed m = false /\
  thread_at 0 false (PUpdate 0%nat fn) m /\
  heap m !! 0%nat = Some entry1 /\ group entry1 = false /\
  fresh now entry1 = false /\
  fn (world m) = ((Some 7, Some "boom"), 2%nat) /\
  heap (run (solo_update 0 now) m) !! 0%nat = Some entry1.
Proof.
  cbv zeta. do 6 (split; [ok|]).
  pose proof (failed_update_leaves_cache 0 false 0 (failing 7 "boom") entry1
                (Some 7) "boom" 2%nat
                (t0 + 2 * minute) (t0 + 2 * minute) (t0 + 2 * minute)
                (t0 + 2 * minute) (t0 + 2 * minute)
                (standing (PUpdate 0%nat (failing 7 "boom")))
                eq_refl eq_refl eq_refl eq_refl ltac:(ok) eq_refl)
    as (Hh & _).
  exact Hh.
Defined.

(** C7 two minutes after the last update, the function succeeding. *)
Lemma successful_update_stores_witness :
  let fn := returning 7 in
  let m := standing (PUpdate 0%nat fn) in
  let now := t0 + 2 * minute in
  crashed m = false /\
  thread_at 0 false (PUpdate 0%nat fn) m /\
  heap m !! 0%nat = Some entry1 /\ group entry1 = false /\
  fresh now entry1 = false /\
  fn (world m) = ((Some 7, None), 2%nat) /\
  now <= now + second /\
  heap (run [(0%nat, now); (0%nat, now); (0%nat, now + second);
             (0%nat, now + second); (0%nat, now + second)] m) !! 0%nat
    = Some (store (Some 7) now entry1).
Proof.
  cbv zeta. do 6 (split; [ok|]).
  split; [zcmp|].
  pose proof (successful_update_stores 0 false 0 (returning 7) entry1
                (Some 7) 2%nat
                (t0 + 2 * minute) (t0 + 2 * minute) (t0 + 2 * minute + second)
                (t0 + 2 * minute + second) (t0 + 2 * minute + second)
                (standing (PUpdate 0%nat (returning 7)))
                eq_refl eq_refl eq_refl eq_refl ltac:(ok) eq_refl ltac:(zcmp))
    as (_ & _ & _ & _ & Hh & _).
  exact Hh.
Defined.

(** C10 two minutes after the last update: the caller gets the failing
    function's 7, not the cached 1. *)
Lemma failed_update_returns_fn_pair_witness :
  let fn := failing 7 "boom" in
  let m := standing (PCallDo (Some 0%nat) fn) in
  let now := t0 + 2 * minute in
  crashed m = false /\
  thread_at 0 false (PCallDo (Some 0%nat) fn) m /\
  heap m !! 0%nat = Some entry1 /\ group entry1 = false /\
  do_decide now entry1 = Expired /\
  fresh now entry1 = false /\
  (fn (world m)).1.2 = Some "boom" /\
  returned 0 (run (solo_do 0 now now) m) = Some (Some 7, Some "boom").
Proof.
  cbv zeta. do 7 (split; [ok|]).
  pose proof (failed_update_returns_fn_pair 0 0 (failing 7 "boom") entry1 "boom"
                (t0 + 2 * minute) (t0 + 2 * minute)
                (standing (PCallDo (Some 0%nat) (failing 7 "boom")))
                eq_refl eq_refl eq_refl eq_refl ltac:(ok) ltac:(ok) eq_refl)
    as (Hr & _).
  exact Hr.
Defined.




(** C2 with three callers gathered at the update path: the first leads,
    the second joins before the leader's function is called, the third
    while it runs; all three return the leader's 1 and one function has
    run. *)
Lemma joined_callers_share_one_execution_witness :
  let m := gathered minute 0 [returning 1; returning 2; returning 3] in
  let m' := run ((0%nat, t0) :: [(1%nat, t0)] ++ (0%nat, t0) :: []
                   ++ (0%nat, t0) :: [(2%nat, t0)] ++ (0%nat, t0) :: []
                   ++ [(0%nat, t0)]) m in
  crashed m = false /\
  thread_at 0 false (PUpdate 0%nat (returning 1)) m /\
  heap m !! 0%nat = Some (new_call minute 0) /\
  fresh t0 (new_call (V := Z) minute 0) = false /\
  returned 0 m' = Some (Some 1, None) /\
  returned 1 m' = Some (Some 1, None) /\
  returned 2 m' = Some (Some 1, None) /\
  world m' = 1%nat.
Proof.
  cbv zeta.
  split; [ok|]. split; [ok|]. split; [ok|]. split; [ok|].
  pose proof (joined_callers_share_one_execution 0 false 0 (returning 1)
                (new_call minute 0) [(1%nat, t0)] [] [(2%nat, t0)] []
                t0 t0 t0 t0 t0
                (gathered minute 0 [returning 1; returning 2; returning 3])
                eq_refl eq_refl eq_refl eq_refl ltac:(ok)) as H.
  destruct H as (Hl & Hjs & Hw & _).
  - repeat constructor; try discriminate.
    + exists false, (returning 2). exact eq_refl.
    + exists false, (returning 3). exact eq_refl.
  - apply returned_at in Hl.
    apply Forall_cons in Hjs as [(d1 & H1) Hjs].
    apply Forall_cons in Hjs as [(d2 & H2) _].
    vm_compute in Hl, H1, H2, Hw. vm_compute.
    injection H1 as <-. injection H2 as <-.
    repeat split; (exact Hl || exact Hw || reflexivity).
Defined.

End Cases.

(** ** Calls in sequence and invariants, at concrete inputs *)
Module More.
Import Examples.

Ltac znot := intros [H1 H2]; vm_compute in H1, H2; discriminate.

Lemma second_call_served_from_cache_witness :
  let m1 := Do "key" (returning 1) t0 t0 dispatcher in
  let m2 := Do "key" (returning 2) (t0 + second) (t0 + second) m1 in
  calls dispatcher !! "key" = None /\
  d_expiration dispatcher < t0 /\
  t0 + second - t0 <= d_expiration dispatcher /\
  returned 1 m2 = Some (Some 1, None) /\ world m2 = 1%nat.
Proof.
  cbv zeta. split; [ok|]. split; [zcmp|]. split; [zcmp|].
  pose proof (second_call_served_from_cache "key" (returning 1) (returning 2)
                (Some 1) 1%nat t0 t0 (t0 + second) (t0 + second) dispatcher
                ltac:(ok) ltac:(ok) ltac:(zrange) ltac:(zrange)
                ltac:(zcmp) ltac:(zcmp) ltac:(ok)
                ltac:(zrange) ltac:(zcmp) ltac:(znot))
    as (_ & Hr & Hw & _).
  split; [exact Hr|exact Hw].
Defined.

Lemma second_call_after_expiration_runs_fn_witness :
  let m1 := Do "key" (returning 1) t0 t0 dispatcher in
  let m2 := Do "key" (returning 2) (t0 + 2 * minute) (t0 + 2 * minute) m1 in
  calls dispatcher !! "key" = None /\
  d_expiration dispatcher < t0 + 2 * minute - t0 /\
  returned 1 m2 = Some (Some 2, None) /\ world m2 = 2%nat.
Proof.
  cbv zeta. split; [ok|]. split; [zcmp|].
  pose proof (second_call_after_expiration_runs_fn "key" (returning 1)
                (returning 2) (Some 1) 1%nat
                t0 t0 (t0 + 2 * minute) (t0 + 2 * minute) dispatcher
                ltac:(ok) ltac:(ok) ltac:(zrange) ltac:(zrange)
                ltac:(zcmp) ltac:(zcmp) ltac:(ok)
                ltac:(zrange) ltac:(zrange) ltac:(zcmp) ltac:(zcmp))
    as (Hr & Hw & _).
  split; [exact Hr|exact Hw].
Defined.

Lemma stale_call_refreshes_in_background_witness :
  let m1 := Do "key" (returning 1) t0 t0 dispatcher in
  let m2 := Do "key" (returning 2) (t0 + 15 * second) (t0 + 15 * second) m1 in
  let m3 := run (solo_update 2 (t0 + 16 * second)) m2 in
  calls dispatcher !! "key" = None /\
  d_updateInterval dispatcher < t0 + 15 * second - t0 /\
  t0 + 15 * second - t0 <= d_expiration dispatcher /\
  returned 1 m2 = Some (Some 1, None) /\ world m2 = 1%nat /\
  returned 1 m3 = Some (Some 1, None) /\ world m3 = 2%nat /\
  result <$> heap m3 !! 0%nat = Some (Some 2).
Proof.
  cbv zeta. split; [ok|]. split; [zcmp|]. split; [zcmp|].
  pose proof (stale_call_refreshes_in_background "key" (returning 1)
                (returning 2) (Some 1) (Some 2) 1%nat 2%nat
                t0 t0 (t0 + 15 * second) (t0 + 15 * second)
                (t0 + 16 * second) dispatcher
                ltac:(ok) ltac:(ok) ltac:(zrange) ltac:(zrange)
                ltac:(zcmp) ltac:(zcmp) ltac:(ok)
                ltac:(zrange) ltac:(zcmp) ltac:(zcmp) ltac:(zcmp)
                ltac:(zrange) ltac:(zcmp) ltac:(ok))
    as (Hr2 & Hw2 & _ & _ & Hr3 & Hw3 & Hh3).
  split; [exact Hr2|]. split; [exact Hw2|]. split; [exact Hr3|].
  split; [exact Hw3|].
  etransitivity; [exact (f_equal (fmap result) Hh3)|ok].
Defined.

Lemma call_after_failure_runs_fn_witness :
  let m1 := Do "key" (failing 1 "boom") t0 t0 dispatcher in
  let m2 := Do "key" (returning 2) (t0 + second) (t0 + second) m1 in
  calls dispatcher !! "key" = None /\
  d_expiration dispatcher < t0 /\
  returned 0 m1 = Some (Some 1, Some "boom") /\
  returned 1 m2 = Some (Some 2, None) /\ world m2 = 2%nat.
Proof.
  cbv zeta. split; [ok|]. split; [zcmp|].
  pose proof (call_after_failure_runs_fn "key" (failing 1 "boom")
                (returning 2) (Some 1) "boom" 1%nat
                t0 t0 (t0 + second) (t0 + second) dispatcher
                ltac:(ok) ltac:(ok) ltac:(zrange) ltac:(zrange)
                ltac:(zcmp) ltac:(zcmp) ltac:(ok)
                ltac:(zrange) ltac:(zrange) ltac:(zcmp) ltac:(zcmp))
    as (Hr1 & _ & Hr2 & Hw2).
  split; [exact Hr1|]. split; [exact Hr2|exact Hw2].
Defined.

Lemma returned_error_is_fresh_witness :
  let m' := Do "key" (failing 1 "boom") t0 t0 dispatcher in
  returned 0 m' = Some (Some 1, Some "boom") /\
  do_decide t0 (new_call (V := Z) minute (10 * second)) = Expired /\
  world m' = 1%nat.
Proof.
  cbv zeta. split; [ok|].
  pose proof (returned_error_is_fresh "key" (failing 1 "boom") t0 t0
                dispatcher 0 (new_call minute (10 * second))
                (Some 1, Some "boom") "boom"
                ltac:(ok) ltac:(ok) ltac:(ok) ltac:(ok) ltac:(ok) ltac:(ok))
    as (Hd & _ & _ & Hw).
  split; [exact Hd|exact Hw].
Defined.


Lemma update_never_rewinds_lastUpdate_witness :
  let m := standing (PUpdate 0%nat (returning 7)) in
  let now := t0 + 2 * minute in
  heap m !! 0%nat = Some entry1 /\
  0 <= expiration entry1 /\ 0 <= updateInterval entry1 /\
  exists c', heap (run (solo_update 0 now) m) !! 0%nat = Some c' /\
             lastUpdate entry1 <= lastUpdate c'.
Proof.
  cbv zeta. split; [ok|]. split; [zcmp|]. split; [zcmp|].
  apply (update_never_rewinds_lastUpdate 0 false 0 (returning 7) entry1
           (t0 + 2 * minute) (t0 + 2 * minute) (t0 + 2 * minute)
           (t0 + 2 * minute) (t0 + 2 * minute)
           (standing (PUpdate 0%nat (returning 7)))
           ltac:(ok) ltac:(ok) ltac:(ok) ltac:(ok)
           ltac:(zcmp) ltac:(zcmp) ltac:(zrange)).
Defined.

Lemma Remove_does_not_cancel_update_witness :
  let now := t0 + 2 * minute in
  let m' := run [(1%nat, now); (0%nat, now); (0%nat, now); (0%nat, now);
                 (0%nat, now)] in_flight_and_Remove in
  calls in_flight_and_Remove !! "key" = Some 0%nat /\
  calls m' !! "key" = None /\
  result <$> heap m' !! 0%nat = Some (Some 7).
Proof.
  cbv zeta. split; [ok|].
  pose proof (Remove_does_not_cancel_update 0 false 1 false "key" 0
                (returning 7) (set_group true entry1)
                (t0 + 2 * minute) (t0 + 2 * minute) (t0 + 2 * minute)
                (t0 + 2 * minute) (t0 + 2 * minute) in_flight_and_Remove
                ltac:(ok) ltac:(ok) ltac:(ok) ltac:(ok))
    as (Hk & _ & Hh & _).
  split; [exact Hk|]. by rewrite Hh.
Defined.

Lemma registry_ok_run_witness :
  registry_ok (two_callers minute 0 (returning 1) (returning 2)) /\
  registry_ok (run (one_after_the_other t0 t0)
                 (two_callers minute 0 (returning 1) (returning 2))).
Proof.
  assert (H : registry_ok (two_callers minute 0 (returning 1) (returning 2))).
  { split; [intros k p|intros k k' p]; cbn; by rewrite lookup_empty. }
  split; [exact H|]. by apply registry_ok_run.
Defined.

Lemma Do_leaves_other_keys_witness :
  let m := Do "key" (returning 1) t0 t0 dispatcher in
  let m' := Do "other" (returning 2) t0 t0 m in
  calls m !! "key" = Some 0%nat /\
  calls m' !! "key" = Some 0%nat /\ heap m' !! 0%nat = heap m !! 0%nat.
Proof.
  cbv zeta. split; [ok|].
  assert (Hc : calls (Do "key" (returning 1) t0 t0 dispatcher)
               = {["key" := 0%nat]}) by ok.
  assert (Hh : length (heap (Do "key" (returning 1) t0 t0 dispatcher))
               = 1%nat) by ok.
  apply (Do_leaves_other_keys "other" "key" 0 (returning 2) t0 t0
           (Do "key" (returning 1) t0 t0 dispatcher) ltac:(ok)).
  - split.
    + intros k p. rewrite Hc, Hh.
      intros [<- <-]%lookup_singleton_Some. lia.
    + intros k k' p. rewrite Hc.
      by intros [<- <-]%lookup_singleton_Some [<- _]%lookup_singleton_Some.
  - intros p c. rewrite Hc. intros [Hk _]%lookup_singleton_Some.
    discriminate Hk.
  - discriminate.
  - ok.
Defined.


Lemma single_flight_run_witness :
  single_flight (two_callers minute 0 (returning 1) (returning 2)) /\
  single_flight (run (take 9 (one_after_the_other t0 t0))
                   (two_callers minute 0 (returning 1) (returning 2))).
Proof.
  assert (H : single_flight (two_callers minute 0 (returning 1) (returning 2))).
  { split.
    - intros [|[|t]] th p Ht Hp; cbn in Ht; [| |done];
        injection Ht as <-; by cbn in Hp.
    - intros [|[|t1]] t2 th1 th2 p H1 _ Hl1; cbn in H1; [| |done];
        injection H1 as <-; by cbn in Hl1. }
  split; [exact H|]. by apply single_flight_run.
Defined.

End More.
